(** * kafka/record/memory_records.py

    A shallow embedding of [MemoryRecords] (the batch reader) and
    [MemoryRecordsBuilder] (the batch writer) of kafka-python, with the
    properties of the record-batch codec proved about the embedding.

    Python integers are [Z]; [bytes] objects are [list byte]; an attribute
    that holds [None] or a value is an [option]; a method is a function from
    the object's state to a [result] that carries the value returned or the
    exception raised together with the state the object is left in. *)

From Stdlib Require Import ZArith Bool Lia String Ascii List.
From Stdlib Require Import Init.Byte.
Import ListNotations.
Open Scope Z_scope.

(** ** The Python primitives the module relies on *)

Module Py.

(** The exceptions that the methods of this file can raise. *)
Inductive exn : Type :=
| CorruptRecordError
| IllegalStateError
| UnsupportedVersionError
| AssertionError (msg : string)
| AttributeError
| TypeError
| ZeroDivisionError
| StopIteration
| StructError.

(** Outcome of a method call on an object whose state has type [S]: the
    value returned or the exception raised, and the state of the object
    afterwards (an exception does not undo earlier assignments). *)
Inductive result (S A : Type) : Type :=
| Return (a : A) (s : S)
| Raise (e : exn) (s : S).
Arguments Return {S A} a s.
Arguments Raise {S A} e s.

Definition state_of {S A} (r : result S A) : S :=
  match r with Return _ s => s | Raise _ s => s end.

Definition bind {S A B} (m : S -> result S A) (k : A -> S -> result S B)
  : S -> result S B :=
  fun s => match m s with
           | Return a s' => k a s'
           | Raise e s' => Raise e s'
           end.

(** [len(x)] *)
Definition len {A} (l : list A) : Z := Z.of_nat (List.length l).

(** A slot of a class with [__slots__]: reading a slot that was never
    assigned raises [AttributeError]. *)
Inductive slot (A : Type) : Type :=
| Unset
| Assigned (a : A).
Arguments Unset {A}.
Arguments Assigned {A} a.

(** Normalisation of one bound of a slice [x[start:stop]] over a sequence
    of length [n] (step 1): a negative bound counts from the end and is
    clipped at 0, a bound past the end is clipped at [n]. *)
Definition adjust_index (i n : Z) : Z :=
  if i <? 0 then (if i + n <? 0 then 0 else i + n)
  else if n <? i then n else i.

(** [memoryview(obj)[start:stop]]: a window into [obj], no bytes copied. *)
Record memoryview : Type := mk_memoryview {
  mv_obj : list byte;
  mv_offset : Z;
  mv_length : Z
}.

Definition memoryview_slice (obj : list byte) (start stop : Z) : memoryview :=
  let s := adjust_index start (len obj) in
  let e := adjust_index stop (len obj) in
  {| mv_obj := obj; mv_offset := s; mv_length := Z.max 0 (e - s) |}.

(** The bytes a view exposes. *)
Definition tobytes (v : memoryview) : list byte :=
  firstn (Z.to_nat (mv_length v)) (skipn (Z.to_nat (mv_offset v)) (mv_obj v)).

(** [len(v)] of a view. *)
Definition mv_len (v : memoryview) : Z := len (tobytes v).

(** ** [struct] *)

(** Standard size of one format character (byte order [>]: no padding). *)
Definition code_size (c : ascii) : Z :=
  if Ascii.eqb c "q" then 8
  else if Ascii.eqb c "i" then 4
  else if Ascii.eqb c "b" then 1
  else 0.

Fixpoint codes_size (fmt : string) : Z :=
  match fmt with
  | EmptyString => 0
  | String c rest => code_size c + codes_size rest
  end.

(** [struct.calcsize(fmt)] for the big-endian formats used here. *)
Definition calcsize (fmt : string) : Z :=
  match fmt with
  | String ">" rest => codes_size rest
  | _ => 0
  end.

(** The [size] bytes that [struct.unpack_from(fmt, buffer, offset)] decodes,
    or [None] where it raises [struct.error]: a negative [offset] counts
    from the end of the buffer, and the buffer must hold [size] bytes from
    the offset on. *)
Definition unpack_bytes (size : Z) (buffer : list byte) (offset : Z)
  : option (list byte) :=
  let offset' := if offset <? 0 then offset + len buffer else offset in
  if (offset' <? 0) || (len buffer - offset' <? size) then None
  else Some (firstn (Z.to_nat size) (skipn (Z.to_nat offset') buffer)).

Definition byte_val (b : byte) : Z := Z.of_N (Byte.to_N b).

(** Big-endian unsigned value of a byte string. *)
Definition be_unsigned (bs : list byte) : Z :=
  fold_left (fun acc b => acc * 256 + byte_val b) bs 0.

(** Two's complement reading of an unsigned [bits]-bit value. *)
Definition to_signed (bits : Z) (u : Z) : Z :=
  if u <? 2 ^ (bits - 1) then u else u - 2 ^ bits.

(** [struct.unpack_from(">i", buffer, offset)] *)
Definition unpack_from_i (buffer : list byte) (offset : Z) : option Z :=
  option_map (fun bs => to_signed 32 (be_unsigned bs))
             (unpack_bytes (calcsize ">i") buffer offset).

(** [struct.unpack_from(">b", buffer, offset)] *)
Definition unpack_from_b (buffer : list byte) (offset : Z) : option Z :=
  option_map (fun bs => to_signed 8 (be_unsigned bs))
             (unpack_bytes (calcsize ">b") buffer offset).

End Py.

Import Py.

(** ** class MemoryRecords *)

(** The two decoders a batch view is wrapped in. *)
Inductive Batch : Type :=
| LegacyRecordBatch (buffer : memoryview) (magic : Z)
| DefaultRecordBatch (buffer : memoryview).

Module MemoryRecords.

Definition LENGTH_OFFSET : Z := calcsize ">q".
Definition LOG_OVERHEAD : Z := calcsize ">qi".
Definition MAGIC_OFFSET : Z := calcsize ">qii".

Record t : Type := mk {
  _buffer : list byte;
  _pos : Z;
  _next_slice : option memoryview;
  _remaining_bytes : option Z
}.

Definition set_truncated (self : t) (remaining : Z) : t :=
  {| _buffer := _buffer self;
     _pos := _pos self;
     _next_slice := None;
     _remaining_bytes := Some remaining |}.

Definition set_next (self : t) (v : memoryview) (slice_end : Z) : t :=
  {| _buffer := _buffer self;
     _pos := slice_end;
     _next_slice := Some v;
     _remaining_bytes := _remaining_bytes self |}.

Definition _cache_next (self : t) : result t unit :=
  let buffer := _buffer self in
  let buffer_len := len buffer in
  let pos := _pos self in
  let remaining := buffer_len - pos in
  if remaining <? LOG_OVERHEAD then
    Return tt (set_truncated self remaining)
  else
    match unpack_from_i buffer (pos + LENGTH_OFFSET) with
    | None => Raise StructError self
    | Some length =>
        let slice_end := pos + LOG_OVERHEAD + length in
        if slice_end >? buffer_len then
          Return tt (set_truncated self remaining)
        else
          Return tt (set_next self (memoryview_slice buffer pos slice_end)
                              slice_end)
    end.

Definition __init__ (bytes_data : list byte) : result t unit :=
  _cache_next {| _buffer := bytes_data;
                 _pos := 0;
                 _next_slice := None;
                 _remaining_bytes := None |}.

Definition size_in_bytes (self : t) : Z := len (_buffer self).

Definition has_next (self : t) : bool :=
  match _next_slice self with Some _ => true | None => false end.

(** The loop [while self._remaining_bytes is None: self._cache_next()].
    [None] when [fuel] iterations were not enough. *)
Fixpoint valid_bytes_loop (fuel : nat) (self : t) : option (result t unit) :=
  match _remaining_bytes self with
  | Some _ => Some (Return tt self)
  | None =>
      match fuel with
      | O => None
      | S fuel' =>
          match _cache_next self with
          | Return _ self' => valid_bytes_loop fuel' self'
          | Raise e self' => Some (Raise e self')
          end
      end
  end.

Definition restore (self : t) (next_slice : option memoryview) (pos : Z) : t :=
  {| _buffer := _buffer self;
     _pos := pos;
     _next_slice := next_slice;
     _remaining_bytes := _remaining_bytes self |}.

Definition valid_bytes_return (self : t) : result t Z :=
  match _remaining_bytes self with
  | Some r => Return (len (_buffer self) - r) self
  | None => Raise TypeError self
  end.

Definition valid_bytes (fuel : nat) (self : t) : option (result t Z) :=
  match _remaining_bytes self with
  | None =>
      let next_slice := _next_slice self in
      let pos := _pos self in
      match valid_bytes_loop fuel self with
      | None => None
      | Some (Raise e self') => Some (Raise e self')
      | Some (Return _ self') =>
          Some (valid_bytes_return (restore self' next_slice pos))
      end
  | Some _ => Some (valid_bytes_return self)
  end.

Section MinSlice.

(** [LegacyRecordBatch.RECORD_OVERHEAD_V0], declared in
    kafka/record/legacy_records.py. *)
Variable RECORD_OVERHEAD_V0 : Z.

Definition MIN_SLICE : Z := LOG_OVERHEAD + RECORD_OVERHEAD_V0.

Definition next_batch (self : t) : result t (option Batch) :=
  match _next_slice self with
  | None => Return None self
  | Some next_slice =>
      if mv_len next_slice <? MIN_SLICE then
        Raise CorruptRecordError self
      else
        match _cache_next self with
        | Raise e self' => Raise e self'
        | Return _ self' =>
            match unpack_from_b (tobytes next_slice) MAGIC_OFFSET with
            | None => Raise StructError self'
            | Some magic =>
                if magic <=? 1 then
                  Return (Some (LegacyRecordBatch next_slice magic)) self'
                else
                  Return (Some (DefaultRecordBatch next_slice)) self'
            end
        end
  end.

Definition __next__ (self : t) : result t (option Batch) :=
  if negb (has_next self) then Raise StopIteration self
  else next_batch self.

(** [n] successive calls of [next_batch], with what each returned; stops
    at the first exception. *)
Fixpoint next_batches (n : nat) (self : t) : result t (list (option Batch)) :=
  match n with
  | O => Return [] self
  | S n' =>
      match next_batch self with
      | Raise e self' => Raise e self'
      | Return b self' =>
          match next_batches n' self' with
          | Raise e self'' => Raise e self''
          | Return bs self'' => Return (b :: bs) self''
          end
      end
  end.

End MinSlice.

End MemoryRecords.


(** ** Buffers made of batches, and the states a reader can reach *)

Module Batches.

Import MemoryRecords.

(** A batch whose length field (bytes 8 to 11) counts exactly the bytes
    that follow it. *)
Definition framed (b : list byte) : Prop :=
  unpack_from_i b LENGTH_OFFSET = Some (len b - LOG_OVERHEAD).

(** A framed batch of at least the minimum size. *)
Definition well_formed (RECORD_OVERHEAD_V0 : Z) (b : list byte) : Prop :=
  framed b /\ MIN_SLICE RECORD_OVERHEAD_V0 <= len b.

(** A trailing partial batch: no complete header, or a header that
    declares more bytes than are there. *)
Definition partial (tail : list byte) : Prop :=
  len tail < LOG_OVERHEAD \/
  exists length, unpack_from_i tail LENGTH_OFFSET = Some length /\
                 len tail < LOG_OVERHEAD + length.

(** The windows of the batches [bs] laid out one after the other in
    [buffer], the first one starting after [pre]. *)
Fixpoint views (buffer pre : list byte) (bs : list (list byte)) : list memoryview :=
  match bs with
  | [] => []
  | b :: bs' =>
      {| mv_obj := buffer; mv_offset := len pre; mv_length := len b |}
        :: views buffer (pre ++ b) bs'
  end.

(** The magic byte of a view: the signed byte at offset 16. *)
Definition magic_of (v : memoryview) : Z :=
  to_signed 8 (byte_val (nth 16 (tobytes v) x00)).

(** The decoder that goes with the magic byte of a view. *)
Definition decoder (v : memoryview) : Batch :=
  if magic_of v <=? 1 then LegacyRecordBatch v (magic_of v)
  else DefaultRecordBatch v.

(** The public operations of a reader. *)
Inductive op : Type :=
| HasNext
| NextBatch
| ValidBytes
| SizeInBytes.

(** The state a reader is left in by one operation; [None] when the
    operation does not come back within [fuel] iterations of its loop. *)
Definition step (RECORD_OVERHEAD_V0 : Z) (fuel : nat) (o : op) (self : t)
  : option t :=
  match o with
  | HasNext => Some self
  | SizeInBytes => Some self
  | NextBatch => Some (state_of (next_batch RECORD_OVERHEAD_V0 self))
  | ValidBytes => option_map state_of (valid_bytes fuel self)
  end.

(** The states a reader goes through from its construction on. *)
Inductive reachable (RECORD_OVERHEAD_V0 : Z) : t -> Prop :=
| reach_init bytes_data :
    reachable RECORD_OVERHEAD_V0 (state_of (__init__ bytes_data))
| reach_step self fuel o self' :
    reachable RECORD_OVERHEAD_V0 self ->
    step RECORD_OVERHEAD_V0 fuel o self = Some self' ->
    reachable RECORD_OVERHEAD_V0 self'.


(** The cursor of a reader: what the iteration depends on. *)
Definition same_cursor (a b : t) : Prop :=
  _buffer a = _buffer b /\ _pos a = _pos b /\ _next_slice a = _next_slice b.

(** What a caller sees of a call: the value or the exception. *)
Definition observed {S A} (r : result S A) : exn + A :=
  match r with Return a _ => inr a | Raise e _ => inl e end.

(** Two calls that a caller cannot tell apart and that leave the same
    cursor. *)
Definition same_outcome {A} (r1 r2 : result t A) : Prop :=
  observed r1 = observed r2 /\ same_cursor (state_of r1) (state_of r2).

(** The reader over [buffer] that has [b], which starts after [pre], as
    its lookahead. *)
Definition at_batch (buffer pre b : list byte) : t :=
  {| _buffer := buffer;
     _pos := len pre + len b;
     _next_slice :=
       Some {| mv_obj := buffer; mv_offset := len pre; mv_length := len b |};
     _remaining_bytes := None |}.

(** The reader over [buffer] that has scanned all of it. *)
Definition at_end (buffer : list byte) : t :=
  {| _buffer := buffer;
     _pos := len buffer;
     _next_slice := None;
     _remaining_bytes := Some 0 |}.

(** The reader over [pre ++ concat todo] that has yielded the batches of
    [pre] and still has [todo] to yield. *)
Definition cursor (pre : list byte) (todo : list (list byte)) : t :=
  match todo with
  | [] => at_end (pre ++ concat todo)
  | b :: _ => at_batch (pre ++ concat todo) pre b
  end.

End Batches.

(** ** The encoders

    [LegacyRecordBatchBuilder] and [DefaultRecordBatchBuilder] are declared
    in kafka/record/legacy_records.py and kafka/record/default_records.py;
    the writer only calls them. *)

Module Encoder.

(** The arguments of one [append]. *)
Record record_args : Type := mk_record_args {
  timestamp : option Z;
  key : option (list byte);
  value : option (list byte);
  headers : list (string * option (list byte))
}.

(** Modelled from the spec: the BatchEncoder capability of section 6,
    constructible from magic, compression kind, transactional flag,
    producer identifier, epoch, base sequence and capacity, exposing
    [append], [size], [set_producer_state], [build] and the readable
    [producer_id] and [producer_epoch]. Every method takes the encoder
    and gives back the encoder it has become. *)
Class BatchEncoder (E Metadata : Type) : Type := {
  LegacyRecordBatchBuilder :
    forall (magic compression_type batch_size : Z), E;
  DefaultRecordBatchBuilder :
    forall (magic compression_type : Z) (is_transactional : bool)
           (producer_id producer_epoch base_sequence batch_size : Z), E;
  append : E -> Z -> record_args -> option Metadata * E;
  size : E -> Z;
  set_producer_state : E -> Z -> Z -> Z -> bool -> E;
  build : E -> list byte * E;
  producer_id : E -> Z;
  producer_epoch : E -> Z
}.

(** The calls a writer makes to its encoder, in order. *)
Inductive call (Metadata : Type) : Type :=
| CallAppend (offset : Z) (r : record_args) (returned : option Metadata)
| CallSize
| CallSetProducerState (producer_id producer_epoch base_sequence : Z)
                       (is_transactional : bool)
| CallBuild.
Arguments CallAppend {Metadata} offset r returned.
Arguments CallSize {Metadata}.
Arguments CallSetProducerState {Metadata} _ _ _ _.
Arguments CallBuild {Metadata}.

End Encoder.

(** ** class MemoryRecordsBuilder *)

Module MemoryRecordsBuilder.

Import Encoder.

Section Writer.

Context {E Metadata : Type} {encoder : BatchEncoder E Metadata}.

Record t : Type := mk {
  _builder : option E;
  _batch_size : Z;
  _buffer : option (list byte);
  _next_offset : Z;
  _closed : bool;
  _magic : Z;
  _bytes_written : Z;
  _producer_id : option Z;
  _producer_epoch : slot Z
}.

(** The writer object together with the log of the calls it has made to
    its encoder. *)
Record world : Type := mk_world {
  this : t;
  calls : list (call Metadata)
}.

Definition set_builder (b : option E) (self : t) : t :=
  mk b (_batch_size self) (_buffer self) (_next_offset self) (_closed self)
     (_magic self) (_bytes_written self) (_producer_id self)
     (_producer_epoch self).

Definition set_buffer (d : option (list byte)) (self : t) : t :=
  mk (_builder self) (_batch_size self) d (_next_offset self) (_closed self)
     (_magic self) (_bytes_written self) (_producer_id self)
     (_producer_epoch self).

Definition set_next_offset (o : Z) (self : t) : t :=
  mk (_builder self) (_batch_size self) (_buffer self) o (_closed self)
     (_magic self) (_bytes_written self) (_producer_id self)
     (_producer_epoch self).

Definition set_closed (c : bool) (self : t) : t :=
  mk (_builder self) (_batch_size self) (_buffer self) (_next_offset self) c
     (_magic self) (_bytes_written self) (_producer_id self)
     (_producer_epoch self).

Definition set_bytes_written (n : Z) (self : t) : t :=
  mk (_builder self) (_batch_size self) (_buffer self) (_next_offset self)
     (_closed self) (_magic self) n (_producer_id self)
     (_producer_epoch self).

Definition set_producer_id (p : option Z) (self : t) : t :=
  mk (_builder self) (_batch_size self) (_buffer self) (_next_offset self)
     (_closed self) (_magic self) (_bytes_written self) p
     (_producer_epoch self).

Definition set_producer_epoch (p : slot Z) (self : t) : t :=
  mk (_builder self) (_batch_size self) (_buffer self) (_next_offset self)
     (_closed self) (_magic self) (_bytes_written self) (_producer_id self)
     p.

Definition on_this (f : t -> t) (w : world) : world :=
  {| this := f (this w); calls := calls w |}.

Definition called (c : call Metadata) (w : world) : world :=
  {| this := this w; calls := calls w ++ [c] |}.

(** Outcome of the constructor. *)
Inductive constructed : Type :=
| New (w : world)
| Fail (e : exn).

(** [assert c, msg] followed by [k]. *)
Definition py_assert (c : bool) (msg : string) (k : constructed) : constructed :=
  if c then k else Fail (AssertionError msg).

(** [x in l] *)
Definition mem (x : Z) (l : list Z) : bool := existsb (Z.eqb x) l.

Definition __init__ (magic compression_type batch_size offset : Z)
           (transactional : bool)
           (producer_id producer_epoch base_sequence : Z) : constructed :=
  py_assert (mem magic [0; 1; 2]) "Not supported magic"
 (py_assert (mem compression_type [0; 1; 2; 3; 4]) "Not valid compression type"
 (if 2 <=? magic then
    py_assert (negb transactional || negb (producer_id =? -1))
      "Cannot write transactional messages without a valid producer ID"
   (py_assert ((producer_id =? -1) || negb (producer_epoch =? -1))
      "Invalid negative producer epoch"
   (py_assert ((producer_id =? -1) || negb (base_sequence =? -1))
      "Invalid negative sequence number used"
   (New {| this :=
             {| _builder :=
                  Some (DefaultRecordBatchBuilder
                          magic compression_type transactional
                          producer_id producer_epoch base_sequence
                          batch_size);
                _batch_size := batch_size;
                _buffer := None;
                _next_offset := offset;
                _closed := false;
                _magic := magic;
                _bytes_written := 0;
                _producer_id := Some producer_id;
                _producer_epoch := Assigned producer_epoch |};
           calls := [] |})))
  else
    py_assert (negb transactional && (producer_id =? -1))
      (if magic =? 0
       then "Idempotent messages are not supported for magic 0"
       else "Idempotent messages are not supported for magic 1")
   (New {| this :=
             {| _builder :=
                  Some (LegacyRecordBatchBuilder
                          magic compression_type batch_size);
                _batch_size := batch_size;
                _buffer := None;
                _next_offset := offset;
                _closed := false;
                _magic := magic;
                _bytes_written := 0;
                _producer_id := None;
                _producer_epoch := Unset |};
           calls := [] |}))).

Definition skip (offsets_to_skip : Z) (w : world) : result world unit :=
  Return tt
    (on_this (fun self =>
                set_next_offset (_next_offset self + offsets_to_skip) self) w).

Definition append (r : record_args) (w : world)
  : result world (option Metadata) :=
  let self := this w in
  if _closed self then Return None w
  else
    let offset := _next_offset self in
    match _builder self with
    | None => Raise AttributeError w
    | Some b =>
        let (metadata, b') := Encoder.append b offset r in
        let w1 := called (CallAppend offset r metadata)
                         (on_this (set_builder (Some b')) w) in
        match metadata with
        | None => Return None w1
        | Some md =>
            Return (Some md)
              (on_this (fun self =>
                          set_next_offset (_next_offset self + 1) self) w1)
        end
    end.

Definition set_producer_state (producer_id producer_epoch base_sequence : Z)
           (is_transactional : bool) (w : world) : result world unit :=
  let self := this w in
  if _magic self <? 2 then Raise UnsupportedVersionError w
  else if _closed self then Raise IllegalStateError w
  else
    match _builder self with
    | None => Raise AttributeError w
    | Some b =>
        let b' := Encoder.set_producer_state
                    b producer_id producer_epoch base_sequence
                    is_transactional in
        Return tt
          (on_this (set_producer_id (Some producer_id))
             (called (CallSetProducerState producer_id producer_epoch
                                           base_sequence is_transactional)
                (on_this (set_builder (Some b')) w)))
    end.

(** The property [producer_id]. *)
Definition get_producer_id (w : world) : result world (option Z) :=
  Return (_producer_id (this w)) w.

(** The property [producer_epoch]. *)
Definition get_producer_epoch (w : world) : result world Z :=
  match _producer_epoch (this w) with
  | Assigned e => Return e w
  | Unset => Raise AttributeError w
  end.

Definition records (w : world) : result world MemoryRecords.t :=
  if negb (_closed (this w)) then Raise (AssertionError EmptyString) w
  else
    match _buffer (this w) with
    | None => Raise TypeError w
    | Some data =>
        match MemoryRecords.__init__ data with
        | Return _ reader => Return reader w
        | Raise e _ => Raise e w
        end
    end.

Definition close (w : world) : result world unit :=
  let self := this w in
  if negb (_closed self) then
    match _builder self with
    | None => Raise AttributeError w
    | Some b =>
        let w1 := called CallSize
                    (on_this (set_bytes_written (Encoder.size b)) w) in
        let (data, b') := Encoder.build b in
        let w2 := called CallBuild
                    (on_this (fun self =>
                                set_buffer (Some data)
                                  (set_builder (Some b') self)) w1) in
        let w3 := if _magic (this w2) =? 2 then
                    on_this (fun self =>
                               set_producer_epoch
                                 (Assigned (Encoder.producer_epoch b'))
                                 (set_producer_id
                                    (Some (Encoder.producer_id b')) self))
                            w2
                  else w2 in
        let w4 := on_this (set_builder None) w3 in
        Return tt (on_this (set_closed true) w4)
    end
  else Return tt (on_this (set_closed true) w).

Definition size_in_bytes (w : world) : result world Z :=
  let self := this w in
  if negb (_closed self) then
    match _builder self with
    | None => Raise AttributeError w
    | Some b => Return (Encoder.size b) (called CallSize w)
    end
  else
    match _buffer self with
    | None => Raise TypeError w
    | Some data => Return (len data) w
    end.

(** The quotient [size_in_bytes() / _bytes_written] is left as its
    numerator and denominator. *)
Definition compression_rate (w : world) : result world (Z * Z) :=
  if negb (_closed (this w)) then Raise (AssertionError EmptyString) w
  else
    bind size_in_bytes
         (fun n w' =>
            if _bytes_written (this w') =? 0 then Raise ZeroDivisionError w'
            else Return (n, _bytes_written (this w')) w') w.

Definition is_full (w : world) : result world bool :=
  let self := this w in
  if _closed self then Return true w
  else
    match _builder self with
    | None => Raise AttributeError w
    | Some b =>
        Return (_batch_size self <=? Encoder.size b) (called CallSize w)
    end.

Definition next_offset (w : world) : result world Z :=
  Return (_next_offset (this w)) w.

Definition buffer (w : world) : result world (option (list byte)) :=
  if negb (_closed (this w)) then Raise (AssertionError EmptyString) w
  else Return (_buffer (this w)) w.

(** The public operations of a writer. *)
Inductive op : Type :=
| Skip (offsets_to_skip : Z)
| Append (r : record_args)
| SetProducerState (producer_id producer_epoch base_sequence : Z)
                   (is_transactional : bool)
| GetProducerId
| GetProducerEpoch
| Records
| Close
| SizeInBytes
| CompressionRate
| IsFull
| NextOffset
| Buffer.

(** The world after one operation, whether it returned or raised. *)
Definition step (w : world) (o : op) : world :=
  match o with
  | Skip n => state_of (skip n w)
  | Append r => state_of (append r w)
  | SetProducerState p e s tx => state_of (set_producer_state p e s tx w)
  | GetProducerId => state_of (get_producer_id w)
  | GetProducerEpoch => state_of (get_producer_epoch w)
  | Records => state_of (records w)
  | Close => state_of (close w)
  | SizeInBytes => state_of (size_in_bytes w)
  | CompressionRate => state_of (compression_rate w)
  | IsFull => state_of (is_full w)
  | NextOffset => state_of (next_offset w)
  | Buffer => state_of (buffer w)
  end.

(** A writer's lifetime: the operations applied one after the other. *)
Definition run (ops : list op) (w : world) : world := fold_left step ops w.

Definition is_close (o : op) : bool :=
  match o with Close => true | _ => false end.

Definition is_skip (o : op) : bool :=
  match o with Skip _ => true | _ => false end.

Definition is_build (c : call Metadata) : bool :=
  match c with CallBuild => true | _ => false end.

(** How many times the encoder was asked to build. *)
Definition builds (w : world) : nat :=
  List.length (filter is_build (calls w)).

(** An open writer still has its encoder and has not built; a closed
    one has built exactly once. *)
Definition built_once_closed (w : world) : Prop :=
  (_closed (this w) = true -> builds w = 1%nat) /\
  (_closed (this w) = false ->
   _builder (this w) <> None /\ builds w = 0%nat).

(** A writer as its constructor leaves it. *)
Definition fresh (w0 : world) : Prop :=
  exists magic compression_type batch_size offset transactional
         producer_id producer_epoch base_sequence,
    __init__ magic compression_type batch_size offset transactional
             producer_id producer_epoch base_sequence = New w0.

(** The offsets of the appends that the encoder accepted, in order. *)
Fixpoint accepted_offsets (cs : list (call Metadata)) : list Z :=
  match cs with
  | [] => []
  | CallAppend offset _ (Some _) :: cs' => offset :: accepted_offsets cs'
  | _ :: cs' => accepted_offsets cs'
  end.

End Writer.

Arguments t : clear implicits.
Arguments world : clear implicits.
Arguments constructed : clear implicits.
Arguments op : clear implicits.

End MemoryRecordsBuilder.

(** ** A test double for the encoders *)

Module TestDouble.

Import Encoder.

(** An encoder that counts ten bytes for every record, refuses a record
    that would pass its capacity, and remembers its producer state. *)
Record enc : Type := mk_enc {
  capacity : Z;
  offsets : list Z;
  pid : Z;
  epoch : Z;
  sequence : Z;
  transactional : bool
}.

Definition enc_size (e : enc) : Z := 10 * len (offsets e).

Definition enc_append (e : enc) (offset : Z) (r : record_args)
  : option Z * enc :=
  if capacity e <? enc_size e + 10 then (None, e)
  else (Some offset,
        mk_enc (capacity e) (offsets e ++ [offset]) (pid e) (epoch e)
               (sequence e) (transactional e)).

Definition enc_build (e : enc) : list byte * enc :=
  (repeat x00 (Z.to_nat (enc_size e)), e).

#[export] Instance encoder : BatchEncoder enc Z := {
  LegacyRecordBatchBuilder _ _ batch_size :=
    mk_enc batch_size [] (-1) (-1) (-1) false;
  DefaultRecordBatchBuilder _ _ is_transactional producer_id producer_epoch
                            base_sequence batch_size :=
    mk_enc batch_size [] producer_id producer_epoch base_sequence
           is_transactional;
  append := enc_append;
  size := enc_size;
  set_producer_state e p ep s tx := mk_enc (capacity e) (offsets e) p ep s tx;
  build := enc_build;
  producer_id := pid;
  producer_epoch := epoch
}.

Definition a_record : record_args :=
  mk_record_args (Some 0) None (Some [x01]) [].

(** A 100-byte buffer whose first length field is -22. *)
Definition negative_length_buffer : list byte :=
  repeat x00 8 ++ [xff; xff; xff; xea] ++ repeat x00 88.

(** A 100-byte buffer whose first length field is -5. *)
Definition undersized_buffer : list byte :=
  repeat x00 8 ++ [xff; xff; xff; xfb] ++ repeat x00 88.

(** A 12-byte buffer whose length field is -12. *)
Definition stuck_buffer : list byte :=
  repeat x00 8 ++ [xff; xff; xff; xf4].

(** A 12-byte buffer whose length field is -13. *)
Definition wrapped_buffer : list byte :=
  repeat x00 8 ++ [xff; xff; xff; xf3].

(** A framed batch of 26 bytes with magic 0, and one with magic 2. *)
Definition legacy_batch : list byte :=
  repeat x00 8 ++ [x00; x00; x00; x0e] ++ repeat x00 14.

Definition default_batch : list byte :=
  repeat x00 8 ++ [x00; x00; x00; x0e] ++ repeat x00 4 ++ [x02]
         ++ repeat x00 9.

(** A header that declares 100 bytes, of which only three are there. *)
Definition partial_batch : list byte :=
  repeat x00 8 ++ [x00; x00; x00; x64] ++ repeat x00 3.

(** The writer that the constructor makes over this encoder for a
    capacity of 100 bytes, no compression and no producer state. *)
Definition open_writer (magic offset : Z) : MemoryRecordsBuilder.world enc Z :=
  {| MemoryRecordsBuilder.this :=
       {| MemoryRecordsBuilder._builder :=
            Some (mk_enc 100 [] (-1) (-1) (-1) false);
          MemoryRecordsBuilder._batch_size := 100;
          MemoryRecordsBuilder._buffer := None;
          MemoryRecordsBuilder._next_offset := offset;
          MemoryRecordsBuilder._closed := false;
          MemoryRecordsBuilder._magic := magic;
          MemoryRecordsBuilder._bytes_written := 0;
          MemoryRecordsBuilder._producer_id :=
            if magic <? 2 then None else Some (-1);
          MemoryRecordsBuilder._producer_epoch :=
            if magic <? 2 then Unset else Assigned (-1) |};
     MemoryRecordsBuilder.calls := [] |}.

(** A framed legacy batch followed by a header whose length field is -48
    and 62 more bytes: 100 bytes in all. *)
Definition skipping_buffer : list byte :=
  legacy_batch ++ repeat x00 8 ++ [xff; xff; xff; xd0] ++ repeat x00 62.

(** Two framed batches followed by a partial one: 67 bytes in all. *)
Definition streamed_buffer : list byte :=
  legacy_batch ++ default_batch ++ partial_batch.

(** An encoder with no state that accepts every record and builds the
    26-byte legacy batch above. *)
#[export] Instance framing_encoder : BatchEncoder unit Z := {
  LegacyRecordBatchBuilder _ _ _ := tt;
  DefaultRecordBatchBuilder _ _ _ _ _ _ _ := tt;
  append e offset _ := (Some offset, e);
  size _ := 26;
  set_producer_state e _ _ _ _ := e;
  build e := (legacy_batch, e);
  producer_id _ := -1;
  producer_epoch _ := -1
}.

End TestDouble.

(** ** More about scans and lifetimes *)

Module Scans.

Import MemoryRecords Batches.

(** The reader over [pre ++ concat todo ++ tail] that has yielded the
    batches of [pre] and still has [todo] to yield before the partial batch
    [tail]. *)
Definition cursor_tail (pre : list byte) (todo : list (list byte))
           (tail : list byte) : t :=
  match todo with
  | [] => {| _buffer := pre ++ concat todo ++ tail;
             _pos := len pre;
             _next_slice := None;
             _remaining_bytes := Some (len tail) |}
  | b :: _ => at_batch (pre ++ concat todo ++ tail) pre b
  end.

(** The reader with its leftover count forgotten. *)
Definition forget (self : t) : t :=
  {| _buffer := _buffer self;
     _pos := _pos self;
     _next_slice := _next_slice self;
     _remaining_bytes := None |}.

(** The leftover count of [self] is [r], and [r] is what a scan from the
    cursor of [self] to the end of the buffer computes. *)
Definition leftover_is (self : t) (r : Z) : Prop :=
  _remaining_bytes self = Some r /\
  exists fuel s,
    valid_bytes_loop fuel (forget self) = Some (Return tt s) /\
    _remaining_bytes s = Some r.

(** A view that is a window of [buffer], within its bounds. *)
Definition window_of (buffer : list byte) (v : memoryview) : Prop :=
  mv_obj v = buffer /\
  0 <= mv_offset v /\ 0 <= mv_length v /\
  mv_offset v + mv_length v <= len buffer.

(** The position and the lookahead stay within the buffer. *)
Definition within_buffer (self : t) : Prop :=
  _pos self <= len (_buffer self) /\
  forall v, _next_slice self = Some v -> window_of (_buffer self) v.

(** The leftover count, when known, is not negative. *)
Definition leftover_nonneg (self : t) : Prop :=
  forall r, _remaining_bytes self = Some r -> 0 <= r.

End Scans.

Module Lifetimes.

Import Encoder MemoryRecordsBuilder.

(** The sum of the offsets skipped by the operations [ops]. *)
Fixpoint skipped (ops : list op) : Z :=
  match ops with
  | [] => 0
  | Skip n :: ops' => n + skipped ops'
  | _ :: ops' => skipped ops'
  end.

Section Writer.

Context {E Metadata : Type} {encoder : BatchEncoder E Metadata}.

(** The two states of a writer: open, with its encoder and no buffer, or
    closed, with its buffer and no encoder. *)
Definition open_or_closed (w : world E Metadata) : Prop :=
  (_closed (this w) = false /\
   _builder (this w) <> None /\ _buffer (this w) = None) \/
  (_closed (this w) = true /\
   _builder (this w) = None /\ _buffer (this w) <> None).

(** The producer id and epoch of the writer can be read. *)
Definition producer_known (w : world E Metadata) : Prop :=
  (exists p, _producer_id (this w) = Some p) /\
  (exists e, _producer_epoch (this w) = Assigned e).

End Writer.

End Lifetimes.

(** * Properties of the reader *)

Module MemoryRecordsSpec.

Import MemoryRecords Batches.

Lemma LENGTH_OFFSET_eq : LENGTH_OFFSET = 8.
Proof. reflexivity. Qed.

Lemma LOG_OVERHEAD_eq : LOG_OVERHEAD = 12.
Proof. reflexivity. Qed.

Lemma MAGIC_OFFSET_eq : MAGIC_OFFSET = 16.
Proof. reflexivity. Qed.

Lemma len_nonneg {A} (l : list A) : 0 <= len l.
Proof. unfold len. lia. Qed.

Lemma len_app {A} (l1 l2 : list A) : len (l1 ++ l2) = len l1 + len l2.
Proof. unfold len. rewrite length_app. lia. Qed.

Lemma adjust_index_in_range i n : 0 <= i <= n -> adjust_index i n = i.
Proof.
  intros Hi. unfold adjust_index.
  destruct (Z.ltb_spec i 0); [lia|].
  destruct (Z.ltb_spec n i); [lia|reflexivity].
Qed.

Lemma unpack_bytes_in_range size buffer offset :
  0 <= offset -> offset + size <= len buffer ->
  unpack_bytes size buffer offset =
    Some (firstn (Z.to_nat size) (skipn (Z.to_nat offset) buffer)).
Proof.
  intros H0 H1. unfold unpack_bytes.
  destruct (Z.ltb_spec offset 0); [lia|].
  destruct (Z.ltb_spec offset 0); [lia|].
  destruct (Z.ltb_spec (len buffer - offset) size); [lia|].
  reflexivity.
Qed.

Lemma unpack_bytes_nonneg_some size buffer offset bs :
  0 <= offset -> unpack_bytes size buffer offset = Some bs ->
  offset + size <= len buffer.
Proof.
  intros H0. unfold unpack_bytes.
  destruct (Z.ltb_spec offset 0); [lia|].
  destruct (Z.ltb_spec offset 0); [lia|].
  destruct (Z.ltb_spec (len buffer - offset) size); simpl; [discriminate|lia].
Qed.

Lemma firstn_skipn_middle (pre b rest : list byte) (o n : nat) :
  (o + n <= List.length b)%nat ->
  firstn n (skipn (List.length pre + o) (pre ++ b ++ rest)) =
    firstn n (skipn o b).
Proof.
  intros Hn.
  rewrite skipn_app.
  rewrite skipn_all2 by lia. simpl.
  replace (List.length pre + o - List.length pre)%nat with o by lia.
  rewrite skipn_app, firstn_app.
  rewrite length_skipn.
  replace (n - (List.length b - o))%nat with 0%nat by lia.
  simpl. apply app_nil_r.
Qed.

(** Decoding inside a batch does not depend on what surrounds it. *)
Lemma unpack_bytes_middle size (pre b rest : list byte) offset :
  0 <= size -> 0 <= offset -> offset + size <= len b ->
  unpack_bytes size (pre ++ b ++ rest) (len pre + offset) =
    unpack_bytes size b offset.
Proof.
  intros Hs H0 H1.
  pose proof (len_nonneg pre). pose proof (len_nonneg rest).
  rewrite !unpack_bytes_in_range; try lia.
  2:{ rewrite !len_app. lia. }
  f_equal.
  replace (Z.to_nat (len pre + offset))
    with (List.length pre + Z.to_nat offset)%nat by (unfold len; lia).
  apply firstn_skipn_middle. unfold len in H1. lia.
Qed.

Lemma unpack_from_i_middle (pre b rest : list byte) offset :
  0 <= offset -> offset + 4 <= len b ->
  unpack_from_i (pre ++ b ++ rest) (len pre + offset) = unpack_from_i b offset.
Proof.
  intros. unfold unpack_from_i.
  change (calcsize ">i") with 4.
  rewrite unpack_bytes_middle by lia. reflexivity.
Qed.

Lemma tobytes_middle (pre b rest : list byte) :
  tobytes {| mv_obj := pre ++ b ++ rest; mv_offset := len pre;
             mv_length := len b |} = b.
Proof.
  unfold tobytes. simpl. unfold len. rewrite !Nat2Z.id.
  replace (List.length pre) with (List.length pre + 0)%nat at 1 by lia.
  rewrite firstn_skipn_middle by lia.
  simpl. apply firstn_all.
Qed.

Lemma framed_length b : framed b -> 12 <= len b.
Proof.
  unfold framed, unpack_from_i. intros H.
  destruct (unpack_bytes (calcsize ">i") b LENGTH_OFFSET) eqn:E; [|discriminate].
  apply unpack_bytes_nonneg_some in E; [|rewrite LENGTH_OFFSET_eq; lia].
  change (calcsize ">i") with 4 in E. rewrite LENGTH_OFFSET_eq in E. lia.
Qed.

Lemma memoryview_slice_in_range buffer start stop :
  0 <= start -> 0 <= stop <= len buffer ->
  memoryview_slice buffer start stop =
    {| mv_obj := buffer;
       mv_offset := Z.min start (len buffer);
       mv_length := Z.max 0 (stop - Z.min start (len buffer)) |}.
Proof.
  intros Hs He. unfold memoryview_slice.
  rewrite (adjust_index_in_range stop) by lia.
  unfold adjust_index.
  destruct (Z.ltb_spec start 0); [lia|].
  destruct (Z.ltb_spec (len buffer) start).
  - rewrite Z.min_r by lia. reflexivity.
  - rewrite Z.min_l by lia. reflexivity.
Qed.

Lemma cache_next_truncated self :
  len (_buffer self) - _pos self < 12 ->
  _cache_next self =
    Return tt (mk (_buffer self) (_pos self) None
                  (Some (len (_buffer self) - _pos self))).
Proof.
  intros H. unfold _cache_next. rewrite LOG_OVERHEAD_eq.
  destruct (Z.ltb_spec (len (_buffer self) - _pos self) 12); [|lia].
  reflexivity.
Qed.

Lemma cache_next_read self length :
  12 <= len (_buffer self) - _pos self ->
  unpack_from_i (_buffer self) (_pos self + 8) = Some length ->
  _cache_next self =
    if _pos self + 12 + length >? len (_buffer self) then
      Return tt (mk (_buffer self) (_pos self) None
                    (Some (len (_buffer self) - _pos self)))
    else
      Return tt (mk (_buffer self) (_pos self + 12 + length)
                    (Some (memoryview_slice (_buffer self) (_pos self)
                                            (_pos self + 12 + length)))
                    (_remaining_bytes self)).
Proof.
  intros H Hread. unfold _cache_next.
  rewrite LOG_OVERHEAD_eq, LENGTH_OFFSET_eq, Hread.
  destruct (Z.ltb_spec (len (_buffer self) - _pos self) 12); [lia|].
  reflexivity.
Qed.

Lemma cache_next_unreadable self :
  12 <= len (_buffer self) - _pos self ->
  unpack_from_i (_buffer self) (_pos self + 8) = None ->
  _cache_next self = Raise StructError self.
Proof.
  intros H Hread. unfold _cache_next.
  rewrite LOG_OVERHEAD_eq, LENGTH_OFFSET_eq, Hread.
  destruct (Z.ltb_spec (len (_buffer self) - _pos self) 12); [lia|].
  reflexivity.
Qed.

Lemma unpack_from_i_in_range buffer offset :
  0 <= offset -> offset + 4 <= len buffer ->
  unpack_from_i buffer offset =
    Some (to_signed 32
            (be_unsigned (firstn 4 (skipn (Z.to_nat offset) buffer)))).
Proof.
  intros. unfold unpack_from_i. change (calcsize ">i") with 4.
  rewrite unpack_bytes_in_range by lia. reflexivity.
Qed.

(** From a position inside the buffer the scan step never raises. *)
Lemma cache_next_returns self :
  0 <= _pos self -> exists self', _cache_next self = Return tt self'.
Proof.
  intros Hpos.
  destruct (Z.lt_ge_cases (len (_buffer self) - _pos self) 12) as [Hlt|Hge].
  - rewrite cache_next_truncated by assumption. eauto.
  - erewrite cache_next_read;
      [|assumption|apply unpack_from_i_in_range; lia].
    destruct (_ >? _); eauto.
Qed.

Lemma cache_next_framed buffer pre b rest nx rem :
  buffer = pre ++ b ++ rest ->
  framed b ->
  _cache_next (mk buffer (len pre) nx rem) =
    Return tt (mk buffer (len pre + len b)
                  (Some (mk_memoryview buffer (len pre) (len b))) rem).
Proof.
  intros -> Hb.
  pose proof (framed_length b Hb) as Hlen.
  pose proof (len_nonneg pre). pose proof (len_nonneg rest).
  assert (Htotal : len (pre ++ b ++ rest) = len pre + len b + len rest)
    by (rewrite !len_app; lia).
  rewrite (cache_next_read _ (len b - 12)); simpl.
  - destruct (Z.gtb_spec (len pre + 12 + (len b - 12))
                         (len (pre ++ b ++ rest))); [lia|].
    rewrite memoryview_slice_in_range by lia.
    rewrite Z.min_l by lia.
    replace (len pre + 12 + (len b - 12)) with (len pre + len b) by lia.
    replace (Z.max 0 (len pre + len b - len pre)) with (len b) by lia.
    reflexivity.
  - lia.
  - rewrite unpack_from_i_middle by lia.
    unfold framed in Hb. rewrite LENGTH_OFFSET_eq, LOG_OVERHEAD_eq in Hb.
    exact Hb.
Qed.

Lemma cache_next_partial buffer pre tail nx rem :
  buffer = pre ++ tail ->
  partial tail ->
  _cache_next (mk buffer (len pre) nx rem) =
    Return tt (mk buffer (len pre) None (Some (len tail))).
Proof.
  intros -> Htail.
  pose proof (len_nonneg pre). pose proof (len_nonneg tail).
  assert (Hrem : len (pre ++ tail) - len pre = len tail)
    by (rewrite len_app; lia).
  destruct (Z.lt_ge_cases (len tail) 12) as [Hlt|Hge].
  - rewrite cache_next_truncated; simpl; [|lia]. rewrite Hrem. reflexivity.
  - destruct Htail as [Hshort|[length [Hread Hlong]]];
      [rewrite LOG_OVERHEAD_eq in Hshort; lia|].
    rewrite LENGTH_OFFSET_eq in Hread. rewrite LOG_OVERHEAD_eq in Hlong.
    rewrite (cache_next_read _ length); simpl.
    + destruct (Z.gtb_spec (len pre + 12 + length) (len (pre ++ tail)));
        [|lia].
      rewrite Hrem. reflexivity.
    + lia.
    + rewrite <- (app_nil_r tail) at 1.
      rewrite unpack_from_i_middle by lia. exact Hread.
Qed.

(** The loop of [valid_bytes] over framed batches followed by a partial
    one ends at the partial one. *)
Lemma valid_bytes_loop_frames frames :
  forall buffer pre tail nx fuel,
    buffer = pre ++ concat frames ++ tail ->
    Forall framed frames -> partial tail ->
    (List.length frames < fuel)%nat ->
    valid_bytes_loop fuel (mk buffer (len pre) nx None) =
      Some (Return tt (mk buffer (len pre + len (concat frames)) None
                          (Some (len tail)))).
Proof.
  induction frames as [|b fs IH]; intros buffer pre tail nx fuel Hbuf Hfr Htail Hfuel.
  - destruct fuel as [|fuel]; [simpl in Hfuel; lia|].
    simpl in Hbuf. simpl.
    rewrite (cache_next_partial buffer pre tail) by assumption.
    destruct fuel; simpl; rewrite Z.add_0_r; reflexivity.
  - destruct fuel as [|fuel]; [simpl in Hfuel; lia|].
    apply Forall_cons_iff in Hfr as [Hb Hfs].
    simpl in Hbuf. rewrite <- app_assoc in Hbuf.
    cbn [valid_bytes_loop _remaining_bytes].
    rewrite (cache_next_framed buffer pre b (concat fs ++ tail))
      by assumption.
    rewrite <- len_app.
    rewrite (IH buffer (pre ++ b) tail); try assumption.
    + simpl concat. rewrite !len_app. rewrite Z.add_assoc. reflexivity.
    + rewrite Hbuf. rewrite <- app_assoc. reflexivity.
    + simpl in Hfuel. lia.
Qed.

Lemma valid_bytes_frames frames buffer pre tail nx fuel :
  buffer = pre ++ concat frames ++ tail ->
  Forall framed frames -> partial tail ->
  (List.length frames < fuel)%nat ->
  valid_bytes fuel (mk buffer (len pre) nx None) =
    Some (Return (len buffer - len tail)
                 (mk buffer (len pre) nx (Some (len tail)))).
Proof.
  intros Hbuf Hfr Htail Hfuel. unfold valid_bytes.
  cbn [_remaining_bytes _next_slice _pos].
  rewrite (valid_bytes_loop_frames frames buffer pre tail) by assumption.
  reflexivity.
Qed.

Lemma firstn_one_skipn (l : list byte) : forall n,
  (n < List.length l)%nat -> firstn 1 (skipn n l) = [nth n l x00].
Proof.
  induction l as [|x l IH]; intros n Hn; [simpl in Hn; lia|].
  destruct n as [|n]; [reflexivity|].
  simpl in Hn. simpl skipn. simpl nth. apply IH. lia.
Qed.

Lemma unpack_from_b_magic l :
  17 <= len l ->
  unpack_from_b l MAGIC_OFFSET = Some (to_signed 8 (byte_val (nth 16 l x00))).
Proof.
  intros H. unfold unpack_from_b. change (calcsize ">b") with 1.
  rewrite MAGIC_OFFSET_eq.
  rewrite unpack_bytes_in_range by lia.
  change (Z.to_nat 1) with 1%nat. change (Z.to_nat 16) with 16%nat.
  rewrite firstn_one_skipn by (unfold len in H; lia).
  reflexivity.
Qed.

Lemma next_batch_accepts ov self v self' :
  5 <= ov ->
  _next_slice self = Some v ->
  MIN_SLICE ov <= mv_len v ->
  _cache_next self = Return tt self' ->
  next_batch ov self = Return (Some (decoder v)) self'.
Proof.
  intros Hov Hv Hlen Hscan. unfold next_batch. rewrite Hv.
  unfold MIN_SLICE in *. rewrite LOG_OVERHEAD_eq in *.
  destruct (Z.ltb_spec (mv_len v) (12 + ov)); [lia|].
  rewrite Hscan.
  rewrite unpack_from_b_magic by (unfold mv_len in *; lia).
  unfold decoder, magic_of.
  destruct (_ <=? 1); reflexivity.
Qed.

Lemma cache_next_cursor pre b todo :
  Forall framed todo ->
  _cache_next (cursor pre (b :: todo)) = Return tt (cursor (pre ++ b) todo).
Proof.
  intros Hfr. destruct todo as [|b' todo].
  - unfold cursor, at_batch, at_end. simpl concat.
    rewrite cache_next_truncated; simpl.
    + rewrite !app_nil_r, !len_app.
      replace (len pre + len b - (len pre + len b)) with 0 by lia.
      reflexivity.
    + rewrite !app_nil_r, !len_app. lia.
  - apply Forall_cons_iff in Hfr as [Hb' _].
    unfold cursor, at_batch. simpl concat.
    rewrite <- len_app.
    rewrite (cache_next_framed _ (pre ++ b) b' (concat todo)).
    + rewrite <- !app_assoc. reflexivity.
    + rewrite <- !app_assoc. reflexivity.
    + assumption.
Qed.

Lemma next_batch_cursor ov pre b todo :
  5 <= ov -> well_formed ov b -> Forall framed todo ->
  next_batch ov (cursor pre (b :: todo)) =
    Return (Some (decoder (mk_memoryview (pre ++ b ++ concat todo)
                                         (len pre) (len b))))
           (cursor (pre ++ b) todo).
Proof.
  intros Hov [Hb Hmin] Hfr.
  apply next_batch_accepts; try assumption.
  - reflexivity.
  - unfold mv_len. rewrite tobytes_middle. assumption.
  - apply cache_next_cursor. assumption.
Qed.

Lemma well_formed_framed ov bs :
  Forall (well_formed ov) bs -> Forall framed bs.
Proof. apply Forall_impl. intros b [H _]. exact H. Qed.

Lemma next_batches_cursor ov (Hov : 5 <= ov) : forall k todo pre,
  Forall (well_formed ov) todo -> (k <= List.length todo)%nat ->
  next_batches ov k (cursor pre todo) =
    Return (map (fun v => Some (decoder v))
                (firstn k (views (pre ++ concat todo) pre todo)))
           (cursor (pre ++ concat (firstn k todo)) (skipn k todo)).
Proof.
  induction k as [|k IH]; intros todo pre Hwf Hk.
  - simpl. rewrite app_nil_r. reflexivity.
  - destruct todo as [|b todo]; [simpl in Hk; lia|].
    apply Forall_cons_iff in Hwf as [Hb Hwf].
    cbn [next_batches].
    rewrite next_batch_cursor
      by (try assumption; eapply well_formed_framed; eassumption).
    rewrite IH by (try assumption; simpl in Hk; lia).
    simpl. rewrite <- !app_assoc. reflexivity.
Qed.

Lemma has_next_cursor pre todo :
  has_next (cursor pre todo) = negb (Nat.eqb (List.length todo) 0).
Proof. destruct todo; reflexivity. Qed.

Lemma valid_bytes_cursor pre todo fuel :
  Forall framed todo -> (List.length todo <= fuel)%nat ->
  exists self',
    valid_bytes fuel (cursor pre todo) =
      Some (Return (size_in_bytes (cursor pre todo)) self').
Proof.
  intros Hfr Hfuel. destruct todo as [|b todo].
  - eexists. unfold valid_bytes, valid_bytes_return, cursor, at_end.
    cbn [_remaining_bytes _buffer]. unfold size_in_bytes.
    cbn [_buffer]. rewrite Z.sub_0_r. reflexivity.
  - apply Forall_cons_iff in Hfr as [Hb Hfr].
    eexists. unfold cursor, at_batch, size_in_bytes. cbn [_buffer].
    rewrite <- len_app.
    rewrite (valid_bytes_frames todo _ (pre ++ b) []).
    + change (len (@nil byte)) with 0. rewrite Z.sub_0_r. reflexivity.
    + simpl. rewrite app_nil_r, <- app_assoc. reflexivity.
    + assumption.
    + left. reflexivity.
    + simpl in Hfuel. lia.
Qed.

Lemma init_cursor bs :
  Forall framed bs -> __init__ (concat bs) = Return tt (cursor [] bs).
Proof.
  intros Hfr. unfold __init__. destruct bs as [|b bs].
  - reflexivity.
  - apply Forall_cons_iff in Hfr as [Hb _].
    change 0 with (len (@nil byte)).
    rewrite (cache_next_framed _ [] b (concat bs)); [reflexivity| |assumption].
    reflexivity.
Qed.

Lemma tobytes_views bs : forall buffer pre rest,
  buffer = pre ++ concat bs ++ rest ->
  map tobytes (views buffer pre bs) = bs.
Proof.
  induction bs as [|b bs IH]; intros buffer pre rest Hbuf; [reflexivity|].
  simpl. f_equal.
  - rewrite Hbuf. simpl. rewrite <- app_assoc. apply tobytes_middle.
  - apply (IH buffer (pre ++ b) rest).
    rewrite Hbuf. simpl. rewrite <- !app_assoc. reflexivity.
Qed.

(** *** What the scan step leaves behind *)

Lemma cache_next_cases self :
  (exists remaining,
      _cache_next self =
        Return tt (mk (_buffer self) (_pos self) None (Some remaining))) \/
  (exists v slice_end,
      _cache_next self =
        Return tt (mk (_buffer self) slice_end (Some v)
                      (_remaining_bytes self))) \/
  _cache_next self = Raise StructError self.
Proof.
  unfold _cache_next. cbv zeta.
  destruct (_ <? _); [left; eexists; reflexivity|].
  destruct (unpack_from_i _ _); [|right; right; reflexivity].
  destruct (_ >? _);
    [left; eexists; reflexivity|right; left; do 2 eexists; reflexivity].
Qed.

Lemma cache_next_raise_inv self e s :
  _cache_next self = Raise e s -> e = StructError /\ s = self.
Proof.
  destruct (cache_next_cases self) as [[r H]|[[v [p H]]|H]];
    rewrite H; intros E; inversion E; auto.
Qed.

Lemma cache_next_buffer self :
  _buffer (state_of (_cache_next self)) = _buffer self.
Proof.
  destruct (cache_next_cases self) as [[r H]|[[v [p H]]|H]];
    rewrite H; reflexivity.
Qed.



Lemma valid_bytes_loop_buffer fuel : forall self r,
  valid_bytes_loop fuel self = Some r -> _buffer (state_of r) = _buffer self.
Proof.
  induction fuel as [|fuel IH]; intros self r; simpl.
  - destruct (_remaining_bytes self); [|discriminate].
    intros E. inversion E. reflexivity.
  - destruct (_remaining_bytes self).
    + intros E. inversion E. reflexivity.
    + pose proof (cache_next_buffer self) as Hb.
      destruct (_cache_next self) as [[] s|e s]; simpl in Hb.
      * intros E. apply IH in E. congruence.
      * intros E. inversion E. simpl. assumption.
Qed.



(** *** The iteration depends on the cursor only *)

Lemma same_cursor_refl a : same_cursor a a.
Proof. repeat split. Qed.

Lemma cache_next_same_cursor a b :
  same_cursor a b -> same_outcome (_cache_next a) (_cache_next b).
Proof.
  destruct a as [ba pa na ra], b as [bb pb nb rb].
  unfold same_cursor. simpl. intros [-> [-> ->]].
  unfold _cache_next. simpl.
  destruct (_ <? _); [repeat split|].
  destruct (unpack_from_i _ _); [|repeat split].
  destruct (_ >? _); repeat split.
Qed.

Lemma next_batch_same_cursor ov a b :
  same_cursor a b -> same_outcome (next_batch ov a) (next_batch ov b).
Proof.
  intros Hab. pose proof (cache_next_same_cursor a b Hab) as Hc.
  pose proof Hab as [_ [_ Hn]].
  unfold next_batch. rewrite <- Hn.
  destruct (_next_slice a) as [v|]; [|split; [reflexivity|assumption]].
  destruct (_ <? _); [split; [reflexivity|assumption]|].
  destruct (_cache_next a) as [[] sa|ea sa], (_cache_next b) as [[] sb|eb sb];
    destruct Hc as [Ho Hs]; simpl in Ho, Hs; try discriminate.
  - destruct (unpack_from_b _ _) as [magic|]; [|split; [reflexivity|assumption]].
    destruct (_ <=? _); split; (reflexivity || assumption).
  - inversion Ho. split; [reflexivity|assumption].
Qed.

Lemma next_batches_same_cursor ov n : forall a b,
  same_cursor a b -> same_outcome (next_batches ov n a) (next_batches ov n b).
Proof.
  induction n as [|n IH]; intros a b Hab; simpl.
  - split; [reflexivity|assumption].
  - pose proof (next_batch_same_cursor ov a b Hab) as Hc.
    destruct (next_batch ov a) as [x sa|ea sa],
             (next_batch ov b) as [y sb|eb sb];
      destruct Hc as [Ho Hs]; simpl in Ho, Hs; try discriminate.
    + inversion Ho. subst y. specialize (IH sa sb Hs).
      destruct (next_batches ov n sa) as [xs sa'|ea' sa'],
               (next_batches ov n sb) as [ys sb'|eb' sb'];
        destruct IH as [Ho' Hs']; simpl in Ho', Hs'; try discriminate.
      * inversion Ho'. split; [reflexivity|assumption].
      * inversion Ho'. split; [reflexivity|assumption].
    + inversion Ho. split; [reflexivity|assumption].
Qed.

Lemma valid_bytes_returned fuel self v self' :
  valid_bytes fuel self = Some (Return v self') ->
  (exists leftover, _remaining_bytes self' = Some leftover /\
                    v = len (_buffer self) - leftover) /\
  same_cursor self self'.
Proof.
  unfold valid_bytes, valid_bytes_return.
  destruct (_remaining_bytes self) as [r|] eqn:Hr.
  - intros E. inversion E. subst self'. split.
    + exists r. auto.
    + apply same_cursor_refl.
  - destruct (valid_bytes_loop fuel self) as [[[] s|e s]|] eqn:Hloop;
      try discriminate.
    pose proof (valid_bytes_loop_buffer _ _ _ Hloop) as Hbuf. simpl in Hbuf.
    cbn [_remaining_bytes restore _buffer].
    destruct (_remaining_bytes s) as [r|] eqn:Hs; [|discriminate].
    intros E. inversion E. split.
    + exists r. simpl. rewrite Hs, Hbuf. auto.
    + unfold same_cursor. simpl. auto.
Qed.

(** *** The scan step *)

(** The scan step where the position is not negative. Run from any
    non-negative position in any buffer, the scan step behaves as follows.
    If fewer than 12 bytes remain it records the
    remaining byte count as leftover and clears the lookahead. Otherwise it
    reads the signed big-endian 4-byte length field at offset position + 8
    (the read succeeds), computes end = position + 12 + length, and if end
    exceeds the buffer length it records the remaining bytes as leftover
    and clears the lookahead; else it sets the lookahead to
    [memoryview(buffer)[position:end]] and advances the position to end,
    leaving the leftover count as it was. For a non-negative end that
    lookahead is the window that starts at position and holds
    max(0, end - position) bytes. No branch raises. *)
Theorem cache_next_scan_step (self : t) :
  0 <= _pos self ->
  let buffer := _buffer self in
  let pos := _pos self in
  let remaining := len buffer - pos in
  (remaining < 12 ->
     _cache_next self = Return tt (mk buffer pos None (Some remaining))) /\
  (12 <= remaining ->
     exists length,
       unpack_from_i buffer (pos + 8) = Some length /\
       length = to_signed 32 (be_unsigned
                  (firstn 4 (skipn (Z.to_nat (pos + 8)) buffer))) /\
       let slice_end := pos + 12 + length in
       (len buffer < slice_end ->
          _cache_next self =
            Return tt (mk buffer pos None (Some remaining))) /\
       (slice_end <= len buffer ->
          _cache_next self =
            Return tt (mk buffer slice_end
                          (Some (memoryview_slice buffer pos slice_end))
                          (_remaining_bytes self)) /\
          (0 <= slice_end ->
             memoryview_slice buffer pos slice_end =
               mk_memoryview buffer pos (Z.max 0 (slice_end - pos))))).
Proof.
  intros Hpos buffer pos remaining. subst buffer pos remaining. split.
  - apply cache_next_truncated.
  - intros Hrem.
    pose proof (unpack_from_i_in_range (_buffer self) (_pos self + 8))
      as Hread.
    specialize (Hread ltac:(lia) ltac:(lia)).
    eexists. split; [exact Hread|]. split; [reflexivity|].
    cbv zeta. split.
    + intros Hend. rewrite (cache_next_read _ _ Hrem Hread).
      destruct (Z.gtb_spec
                  (_pos self + 12 +
                   to_signed 32 (be_unsigned
                     (firstn 4 (skipn (Z.to_nat (_pos self + 8))
                                      (_buffer self)))))
                  (len (_buffer self))); [reflexivity|lia].
    + intros Hend. split.
      * rewrite (cache_next_read _ _ Hrem Hread).
        destruct (Z.gtb_spec
                    (_pos self + 12 +
                     to_signed 32 (be_unsigned
                       (firstn 4 (skipn (Z.to_nat (_pos self + 8))
                                        (_buffer self)))))
                    (len (_buffer self))); [lia|reflexivity].
      * intros Hend0.
        rewrite memoryview_slice_in_range by lia.
        rewrite Z.min_l by lia. reflexivity.
Qed.

Lemma cache_next_scan_step_witness :
  _cache_next (mk TestDouble.legacy_batch 0 None None) =
    Return tt (mk TestDouble.legacy_batch 26
                  (Some (mk_memoryview TestDouble.legacy_batch 0 26)) None).
Proof.
  destruct (cache_next_scan_step (mk TestDouble.legacy_batch 0 None None))
    as [_ H]; [simpl; lia|].
  destruct H as [length [_ [Hlen [_ H]]]]; [vm_compute; discriminate|].
  vm_compute in Hlen. subst length.
  destruct H as [H _]; [vm_compute; discriminate|].
  exact H.
Defined.

(** C2. The scan step is to end, from any position in any buffer, in one
    of two truncation branches or with the view [position, end) as the
    lookahead and the position at end, and not to raise. The code misses
    the negative length field: it checks [slice_end > buffer_len] and no
    lower bound. Over a 100-byte buffer whose length field is -22 the
    constructor's scan step computes end = -10, caches
    [memoryview(buffer)[0:-10]], the first 90 bytes, and moves the position
    to -10; the scan step from there finds 110 "remaining" bytes, reads at
    offset -2 and raises [struct.error]. *)
Lemma cache_next_raises_from_negative_position :
  let self := state_of (__init__ TestDouble.negative_length_buffer) in
  unpack_from_i TestDouble.negative_length_buffer 8 = Some (-22) /\
  _next_slice self =
    Some (mk_memoryview TestDouble.negative_length_buffer 0 90) /\
  _pos self = -10 /\
  12 <= len (_buffer self) - _pos self /\
  _cache_next self = Raise StructError self.
Proof.
  cbv zeta. split; [reflexivity|]. split; [reflexivity|].
  split; [reflexivity|]. split; [vm_compute; discriminate|].
  reflexivity.
Qed.

(** With the length field -13 in a 12-byte buffer, end is -1 and the
    lookahead is the first 11 bytes. *)
Example cache_next_negative_end :
  __init__ TestDouble.wrapped_buffer =
    Return tt (mk TestDouble.wrapped_buffer (-1)
                  (Some (mk_memoryview TestDouble.wrapped_buffer 0 11)) None).
Proof. reflexivity. Qed.

(** *** Iterating over a buffer of well-formed batches *)

(** C3. Over the concatenation of N well-formed batches (each declares a
    length that matches its size and has at least the minimum size, with
    any magic bytes), the reader yields exactly the N batch windows in
    buffer order, each with the decoder of its magic byte; before each of
    the N calls [has_next()] is true and after them it is false and
    [next_batch()] returns none; and at every point of the iteration
    [valid_bytes()] returns [size_in_bytes()]. *)
Theorem reads_every_batch (RECORD_OVERHEAD_V0 : Z) (bs : list (list byte)) :
  5 <= RECORD_OVERHEAD_V0 ->
  Forall (well_formed RECORD_OVERHEAD_V0) bs ->
  let buffer := concat bs in
  let N := List.length bs in
  exists r0,
    __init__ buffer = Return tt r0 /\
    List.length (views buffer [] bs) = N /\
    map tobytes (views buffer [] bs) = bs /\
    forall k, (k <= N)%nat ->
      exists rk,
        next_batches RECORD_OVERHEAD_V0 k r0 =
          Return (map (fun v => Some (decoder v))
                      (firstn k (views buffer [] bs))) rk /\
        has_next rk = (k <? N)%nat /\
        (k = N -> next_batch RECORD_OVERHEAD_V0 rk = Return None rk) /\
        forall fuel, (N - k <= fuel)%nat ->
          exists rk',
            valid_bytes fuel rk = Some (Return (size_in_bytes rk) rk').
Proof.
  intros Hov Hwf buffer N. subst buffer N.
  pose proof (well_formed_framed _ _ Hwf) as Hfr.
  exists (cursor [] bs). split; [apply init_cursor; assumption|].
  split.
  { clear. generalize (@nil byte) as pre, (concat bs) as buffer.
    induction bs as [|b bs IH]; intros; simpl; [reflexivity|].
    f_equal. apply IH. }
  split.
  { apply (tobytes_views bs (concat bs) [] []).
    simpl. rewrite app_nil_r. reflexivity. }
  intros k Hk.
  exists (cursor ([] ++ concat (firstn k bs)) (skipn k bs)).
  split; [apply (next_batches_cursor _ Hov k bs []); assumption|].
  split.
  { rewrite has_next_cursor, length_skipn.
    destruct (Nat.ltb_spec k (List.length bs)) as [Hlt|Hge].
    - destruct (Nat.eqb_spec (List.length bs - k) 0); [lia|reflexivity].
    - destruct (Nat.eqb_spec (List.length bs - k) 0); [reflexivity|lia]. }
  split.
  { intros ->. rewrite skipn_all. reflexivity. }
  intros fuel Hfuel. apply valid_bytes_cursor.
  - apply Forall_forall. intros b Hb.
    rewrite Forall_forall in Hfr. apply Hfr.
    rewrite <- (firstn_skipn k bs). apply in_or_app. right. exact Hb.
  - rewrite length_skipn. exact Hfuel.
Qed.

Lemma test_batches_well_formed :
  Forall (well_formed 14) [TestDouble.legacy_batch; TestDouble.default_batch].
Proof.
  repeat constructor; try (vm_compute; discriminate).
Qed.

Lemma reads_every_batch_witness :
  let buffer := TestDouble.legacy_batch ++ TestDouble.default_batch ++ [] in
  exists r0 r2,
    __init__ buffer = Return tt r0 /\
    next_batches 14 2 r0 =
      Return [Some (LegacyRecordBatch (mk_memoryview buffer 0 26) 0);
              Some (DefaultRecordBatch (mk_memoryview buffer 26 26))] r2 /\
    has_next r2 = false.
Proof.
  destruct (reads_every_batch
              14 [TestDouble.legacy_batch; TestDouble.default_batch])
    as [r0 [Hinit [_ [_ H]]]];
    [lia|exact test_batches_well_formed|].
  destruct (H 2%nat) as [r2 [Hnext [Hhas _]]]; [simpl; lia|].
  exists r0, r2. split; [exact Hinit|]. split; [|exact Hhas].
  rewrite Hnext. reflexivity.
Defined.

(** *** [next_batch] *)

(** [next_batch()] where the scan step returns. [next_batch()] returns
    none, leaving the reader as it is, when no lookahead is cached. It
    raises the corrupt-record error,
    leaving the reader as it is, exactly when the cached view is shorter
    than the minimum legacy batch size (the 12 bytes of log overhead plus
    the legacy V0 record overhead). Otherwise it runs the scan step for the
    following batch, which cannot raise from a non-negative position, and
    when the scan step returns it returns the cached view in a Legacy
    decoder when the signed byte at offset 16 of the view is at most 1 and
    in a Default decoder when it is at least 2. The legacy V0 record
    overhead is only known to cover the CRC and the magic byte. *)
Theorem next_batch_dispatch (RECORD_OVERHEAD_V0 : Z) (self : t) :
  5 <= RECORD_OVERHEAD_V0 ->
  (_next_slice self = None ->
     next_batch RECORD_OVERHEAD_V0 self = Return None self) /\
  (forall v, _next_slice self = Some v ->
     (mv_len v < LOG_OVERHEAD + RECORD_OVERHEAD_V0 ->
        next_batch RECORD_OVERHEAD_V0 self = Raise CorruptRecordError self) /\
     (LOG_OVERHEAD + RECORD_OVERHEAD_V0 <= mv_len v ->
        (0 <= _pos self -> exists self', _cache_next self = Return tt self') /\
        (forall self', _cache_next self = Return tt self' ->
           (magic_of v <= 1 ->
              next_batch RECORD_OVERHEAD_V0 self =
                Return (Some (LegacyRecordBatch v (magic_of v))) self') /\
           (2 <= magic_of v ->
              next_batch RECORD_OVERHEAD_V0 self =
                Return (Some (DefaultRecordBatch v)) self')))) /\
  (forall s,
     next_batch RECORD_OVERHEAD_V0 self = Raise CorruptRecordError s <->
     s = self /\
     exists v, _next_slice self = Some v /\
               mv_len v < LOG_OVERHEAD + RECORD_OVERHEAD_V0).
Proof.
  intros Hov. split; [|split].
  - intros Hnone. unfold next_batch. rewrite Hnone. reflexivity.
  - intros v Hv. split.
    + intros Hshort. unfold next_batch, MIN_SLICE. rewrite Hv.
      destruct (Z.ltb_spec (mv_len v) (LOG_OVERHEAD + RECORD_OVERHEAD_V0));
        [reflexivity|lia].
    + intros Hlong. split; [apply cache_next_returns|].
      intros self' Hscan.
      pose proof (next_batch_accepts _ _ _ _ Hov Hv Hlong Hscan) as Hnb.
      unfold decoder in Hnb. split; intros Hmagic.
      * destruct (Z.leb_spec (magic_of v) 1); [exact Hnb|lia].
      * destruct (Z.leb_spec (magic_of v) 1); [lia|exact Hnb].
  - intros s. unfold next_batch, MIN_SLICE.
    destruct (_next_slice self) as [v|] eqn:Hv.
    + destruct (Z.ltb_spec (mv_len v) (LOG_OVERHEAD + RECORD_OVERHEAD_V0))
        as [Hshort|Hlong].
      * split.
        -- intros E. inversion E. split; [reflexivity|]. eauto.
        -- intros [-> _]. reflexivity.
      * split.
        -- destruct (_cache_next self) as [[] s'|e s'] eqn:Hscan.
           ++ destruct (unpack_from_b _ _); [|discriminate].
              destruct (_ <=? _); discriminate.
           ++ apply cache_next_raise_inv in Hscan as [-> _]. discriminate.
        -- intros [_ [v' [Hv' Hshort]]]. inversion Hv'. subst v'. lia.
    + split; [discriminate|].
      intros [_ [v [Hv' _]]]. discriminate.
Qed.

Lemma next_batch_dispatch_witness :
  let buffer := TestDouble.default_batch in
  next_batch 14 (mk buffer 26 (Some (mk_memoryview buffer 0 26)) None) =
    Return (Some (DefaultRecordBatch (mk_memoryview buffer 0 26)))
           (mk buffer 26 None (Some 0)).
Proof.
  cbv zeta.
  destruct (next_batch_dispatch
              14 (mk TestDouble.default_batch 26
                     (Some (mk_memoryview TestDouble.default_batch 0 26))
                     None))
    as [_ [H _]]; [lia|].
  destruct (H _ eq_refl) as [_ Hlong].
  destruct Hlong as [_ Hdec]; [vm_compute; discriminate|].
  destruct (Hdec (mk TestDouble.default_batch 26 None (Some 0)) eq_refl)
    as [_ Hdefault].
  apply Hdefault. vm_compute. discriminate.
Defined.

(** C4. [next_batch()] is to return none, raise the corrupt-record error,
    or return a decoder. The code means to refuse a record below the
    minimum overhead, and does over a 100-byte buffer whose length field is
    -5: the cached view has 7 bytes and [next_batch()] raises the
    corrupt-record error. It misses the length field -22 in the same
    buffer: the view [memoryview(buffer)[0:-10]] wraps to the first 90
    bytes, not below the minimum of 26 (V0 record overhead: CRC 4, magic 1,
    attributes 1, key length 4, value length 4), and [next_batch()] raises
    [struct.error] from the scan step at position -10: neither the
    corrupt-record error nor a decoder. *)
Lemma next_batch_raises_struct_error :
  let sibling := state_of (__init__ TestDouble.undersized_buffer) in
  let self := state_of (__init__ TestDouble.negative_length_buffer) in
  (unpack_from_i TestDouble.undersized_buffer 8 = Some (-5) /\
   _next_slice sibling =
     Some (mk_memoryview TestDouble.undersized_buffer 0 7) /\
   next_batch 14 sibling = Raise CorruptRecordError sibling) /\
  (unpack_from_i TestDouble.negative_length_buffer 8 = Some (-22) /\
   _next_slice self =
     Some (mk_memoryview TestDouble.negative_length_buffer 0 90) /\
   LOG_OVERHEAD + 14 <=
     mv_len (mk_memoryview TestDouble.negative_length_buffer 0 90) /\
   next_batch 14 self = Raise StructError self).
Proof.
  cbv zeta. split.
  - repeat split.
  - split; [reflexivity|]. split; [reflexivity|].
    split; [vm_compute; discriminate|]. reflexivity.
Qed.

(** *** [valid_bytes] *)

Lemma valid_bytes_loop_stuck self fuel :
  _remaining_bytes self = None ->
  _cache_next self = Return tt self ->
  valid_bytes_loop fuel self = None.
Proof.
  intros Hr Hfix. induction fuel as [|fuel IH]; simpl; rewrite Hr.
  - reflexivity.
  - rewrite Hfix. exact IH.
Qed.

(** [valid_bytes()] where it returns. Whenever [valid_bytes()] returns, it
    returns the total
    buffer length minus the leftover unusable trailing byte count, and the
    reader's buffer, scan position and cached lookahead are exactly what
    they were before the call, so that the subsequent [next_batch()] calls
    yield the same batches in the same order (and fail the same way) as
    they would have without the call. It does return, within one scan step
    per batch, from every reader state whose buffer from the scan position
    on is a run of framed batches followed by a partial (possibly empty)
    batch, and then the leftover count it computes is the length of the
    partial batch. *)
Theorem valid_bytes_restores_cursor (self : t) :
  (forall fuel v self',
     valid_bytes fuel self = Some (Return v self') ->
     (exists leftover,
         _remaining_bytes self' = Some leftover /\
         v = len (_buffer self) - leftover) /\
     same_cursor self self' /\
     forall RECORD_OVERHEAD_V0 n,
       same_outcome (next_batches RECORD_OVERHEAD_V0 n self)
                    (next_batches RECORD_OVERHEAD_V0 n self')) /\
  (forall pre frames tail fuel,
     _buffer self = pre ++ concat frames ++ tail ->
     _pos self = len pre ->
     Forall framed frames -> partial tail ->
     (List.length frames < fuel)%nat ->
     exists v self',
       valid_bytes fuel self = Some (Return v self') /\
       (_remaining_bytes self = None ->
        v = len (_buffer self) - len tail)).
Proof.
  split.
  - intros fuel v self' Hret.
    destruct (valid_bytes_returned _ _ _ _ Hret) as [Hv Hc].
    split; [exact Hv|]. split; [exact Hc|].
    intros ov n. apply next_batches_same_cursor. exact Hc.
  - intros pre frames tail fuel Hbuf Hpos Hfr Htail Hfuel.
    destruct self as [buffer pos nx rem]. simpl in *. subst pos.
    destruct rem as [r|].
    + do 2 eexists. split; [reflexivity|]. discriminate.
    + rewrite (valid_bytes_frames frames buffer pre tail) by assumption.
      do 2 eexists. split; [reflexivity|]. intros _. reflexivity.
Qed.

Lemma valid_bytes_restores_cursor_witness :
  let r0 := state_of (__init__ TestDouble.streamed_buffer) in
  exists r1,
    valid_bytes 2 r0 = Some (Return 52 r1) /\
    same_cursor r0 r1 /\
    same_outcome (next_batches 14 3 r0) (next_batches 14 3 r1).
Proof.
  cbv zeta. eexists. split; [reflexivity|].
  destruct (valid_bytes_restores_cursor
              (state_of (__init__ TestDouble.streamed_buffer))) as [H _].
  destruct (H 2%nat 52 _ eq_refl) as [_ [Hc Hn]].
  split; [exact Hc|apply Hn].
Defined.

(** C5. [valid_bytes()] is to return the buffer length minus the leftover
    count and to leave the position and the lookahead as they were, from
    every reader state. The code misses the negative length field in two
    ways. Over a 12-byte buffer whose length field is -12 the scan step
    leaves
    the reader where it is, so that [valid_bytes()] never returns. Over a
    framed batch followed by a header whose length field is -48,
    [valid_bytes()] called before the first batch is taken raises
    [struct.error] in its second scan step and leaves the position and the
    lookahead of the first scan step: the next [next_batch()] no longer
    yields the first batch. *)
Lemma valid_bytes_loops_or_moves_cursor :
  (forall fuel,
      valid_bytes fuel (state_of (__init__ TestDouble.stuck_buffer)) = None) /\
  (let buffer := TestDouble.skipping_buffer in
   let r0 := state_of (__init__ buffer) in
   let r1 := mk buffer (-10) (Some (mk_memoryview buffer 26 64)) None in
   _next_slice r0 = Some (mk_memoryview buffer 0 26) /\
   valid_bytes 2 r0 = Some (Raise StructError r1) /\
   observed (next_batch 14 r0) =
     inr (Some (LegacyRecordBatch (mk_memoryview buffer 0 26) 0)) /\
   observed (next_batch 14 r1) = inl StructError).
Proof.
  split.
  - intros fuel. unfold valid_bytes.
    change (_remaining_bytes (state_of (__init__ TestDouble.stuck_buffer)))
      with (@None Z).
    rewrite valid_bytes_loop_stuck; reflexivity.
  - cbv zeta. repeat split.
Qed.

(** *** The cursor invariant *)





End MemoryRecordsSpec.

(** * Properties of the writer *)

Module MemoryRecordsBuilderSpec.

Import Encoder MemoryRecordsBuilder.

Section Writer.

Context {E Metadata : Type} {encoder : BatchEncoder E Metadata}.

Local Abbreviation world := (world E Metadata).

(** *** Construction *)

(** C7. For a supported magic (0, 1 or 2) and a supported compression
    kind (0 to 4) the constructor fails, with the assertion error that
    reports an invalid configuration and before any encoder exists or any
    byte is written, in exactly these cases: for magic >= 2, when
    transactional is true and no producer id is supplied (it is -1), or a
    producer id is supplied without an epoch, or without a base sequence;
    for magic < 2, when transactional is true or a producer id is
    supplied. Every other combination constructs an open writer with no
    buffer, at the requested offset. *)
Theorem init_validation
        (magic compression_type batch_size offset : Z)
        (transactional : bool)
        (producer_id producer_epoch base_sequence : Z) :
  In magic [0; 1; 2] ->
  In compression_type [0; 1; 2; 3; 4] ->
  let invalid :=
    (2 <= magic /\
     ((transactional = true /\ producer_id = -1) \/
      (producer_id <> -1 /\ producer_epoch = -1) \/
      (producer_id <> -1 /\ base_sequence = -1))) \/
    (magic < 2 /\ (transactional = true \/ producer_id <> -1)) in
  let made :=
    __init__ (encoder := encoder) magic compression_type batch_size offset
             transactional producer_id producer_epoch base_sequence in
  (invalid -> exists msg, made = Fail (AssertionError msg)) /\
  (~ invalid ->
   exists w, made = New w /\
             calls w = [] /\
             _builder (this w) <> None /\
             _buffer (this w) = None /\
             _closed (this w) = false /\
             _magic (this w) = magic /\
             _batch_size (this w) = batch_size /\
             _next_offset (this w) = offset).
Proof.
  intros Hmagic Hcompression invalid made. subst invalid made.
  simpl in Hmagic, Hcompression.
  destruct Hmagic as [<-|[<-|[<-|[]]]];
    destruct Hcompression as [<-|[<-|[<-|[<-|[<-|[]]]]]];
    unfold __init__, py_assert, mem; simpl;
    destruct transactional;
    destruct (Z.eqb_spec producer_id (-1));
    destruct (Z.eqb_spec producer_epoch (-1));
    destruct (Z.eqb_spec base_sequence (-1));
    simpl;
    (split;
     [ intros Hinv;
       first [ eexists; reflexivity
             | exfalso; intuition (try lia; try discriminate) ]
     | intros Hinv;
       first [ eexists; repeat split; discriminate
             | exfalso; apply Hinv; clear Hinv;
               intuition (try lia; try discriminate) ] ]).
Qed.

(** *** The log of accepted appends *)

Lemma accepted_offsets_app (cs : list (call Metadata)) c :
  accepted_offsets (cs ++ [c]) =
    accepted_offsets cs ++
    match c with
    | CallAppend offset _ (Some _) => [offset]
    | _ => []
    end.
Proof.
  induction cs as [|c' cs IH]; simpl.
  - destruct c as [o r [m|]| | |]; reflexivity.
  - rewrite IH. destruct c' as [o r [m|]| | |]; reflexivity.
Qed.

Lemma builds_called c (w : world) :
  builds (called c w) = (builds w + if is_build c then 1 else 0)%nat.
Proof.
  unfold builds, called. simpl. rewrite filter_app, length_app. simpl.
  destruct (is_build c); reflexivity.
Qed.

(** What one operation other than [skip] does to the logical offset and
    to the list of accepted offsets: nothing, or one more record at the
    current logical offset. *)
Lemma step_accepted (w : world) o :
  is_skip o = false ->
  (accepted_offsets (calls (step w o)) = accepted_offsets (calls w) /\
   _next_offset (this (step w o)) = _next_offset (this w)) \/
  (accepted_offsets (calls (step w o)) =
     accepted_offsets (calls w) ++ [_next_offset (this w)] /\
   _next_offset (this (step w o)) = _next_offset (this w) + 1).
Proof.
  intros Hskip. destruct o; try discriminate; simpl.
  - unfold append.
    destruct (_closed (this w)); [left; split; reflexivity|].
    destruct (_builder (this w)) as [b|]; [|left; split; reflexivity].
    destruct (Encoder.append b (_next_offset (this w)) r) as [[md|] b'];
      simpl; rewrite accepted_offsets_app.
    + right. split; reflexivity.
    + left. rewrite app_nil_r. split; reflexivity.
  - unfold set_producer_state.
    destruct (_ <? _); [left; split; reflexivity|].
    destruct (_closed (this w)); [left; split; reflexivity|].
    destruct (_builder (this w)) as [b|]; [|left; split; reflexivity].
    simpl. rewrite accepted_offsets_app, app_nil_r.
    left. split; reflexivity.
  - left. split; reflexivity.
  - unfold get_producer_epoch.
    destruct (_producer_epoch (this w)); left; split; reflexivity.
  - unfold records.
    destruct (_closed (this w)); simpl; [|left; split; reflexivity].
    destruct (_buffer (this w)) as [d|]; [|left; split; reflexivity].
    destruct (MemoryRecords.__init__ d); left; split; reflexivity.
  - unfold close.
    destruct (_closed (this w)); simpl; [left; split; reflexivity|].
    destruct (_builder (this w)) as [b|]; [|left; split; reflexivity].
    destruct (Encoder.build b) as [data b']. simpl.
    left. split.
    + destruct (_ =? 2); simpl;
        rewrite !accepted_offsets_app, !app_nil_r; reflexivity.
    + destruct (_ =? 2); reflexivity.
  - unfold size_in_bytes.
    destruct (_closed (this w)); simpl.
    + destruct (_buffer (this w)); left; split; reflexivity.
    + destruct (_builder (this w)); simpl;
        [rewrite accepted_offsets_app, app_nil_r|];
        left; split; reflexivity.
  - unfold compression_rate, bind, size_in_bytes.
    destruct (_closed (this w)); simpl; [|left; split; reflexivity].
    destruct (_buffer (this w)); [|left; split; reflexivity].
    destruct (_ =? 0); left; split; reflexivity.
  - unfold is_full.
    destruct (_closed (this w)); [left; split; reflexivity|].
    destruct (_builder (this w)); simpl;
      [rewrite accepted_offsets_app, app_nil_r|];
      left; split; reflexivity.
  - left. split; reflexivity.
  - unfold buffer.
    destruct (_closed (this w)); left; split; reflexivity.
Qed.

Lemma run_accepted ops : forall (w : world) offset,
  forallb (fun o => negb (is_skip o)) ops = true ->
  let n := List.length (accepted_offsets (calls w)) in
  accepted_offsets (calls w) =
    map (fun k => offset + Z.of_nat k - 1) (seq 1 n) ->
  _next_offset (this w) = offset + Z.of_nat n ->
  let w' := run ops w in
  let n' := List.length (accepted_offsets (calls w')) in
  accepted_offsets (calls w') =
    map (fun k => offset + Z.of_nat k - 1) (seq 1 n') /\
  _next_offset (this w') = offset + Z.of_nat n'.
Proof.
  induction ops as [|o ops IH]; intros w offset Hops n Hacc Hnext;
    [split; assumption|].
  simpl in Hops. apply andb_true_iff in Hops as [Ho Hops].
  apply negb_true_iff in Ho.
  simpl. apply IH; [assumption| |];
    destruct (step_accepted w o Ho) as [[Ha Hn]|[Ha Hn]];
    rewrite ?Ha, ?Hn; try assumption.
  - rewrite length_app. simpl. rewrite seq_app, map_app. simpl.
    f_equal; [exact Hacc|]. f_equal. subst n. lia.
  - rewrite length_app. simpl. subst n. lia.
Qed.

(** *** The lifetime of a writer *)

Ltac unchanged :=
  left; repeat split; simpl; rewrite ?filter_app; simpl;
  rewrite ?app_nil_r; try reflexivity; try (intro; assumption);
  try congruence.

(** What one operation does to the closed flag, the encoder, the buffer
    and the producer epoch: only the first [close] of an open writer
    touches them, and it asks the encoder to build once. *)
Lemma step_effect (w : world) o :
  (_closed (this (step w o)) = _closed (this w) /\
   (_builder (this w) <> None -> _builder (this (step w o)) <> None) /\
   filter is_build (calls (step w o)) = filter is_build (calls w) /\
   _buffer (this (step w o)) = _buffer (this w) /\
   _magic (this (step w o)) = _magic (this w) /\
   _producer_epoch (this (step w o)) = _producer_epoch (this w)) \/
  (o = Close /\
   _closed (this w) = false /\
   _closed (this (step w o)) = true /\
   filter is_build (calls (step w o)) =
     filter is_build (calls w) ++ [CallBuild] /\
   _magic (this (step w o)) = _magic (this w) /\
   (_producer_epoch (this (step w o)) = _producer_epoch (this w) \/
    _magic (this w) = 2)).
Proof.
  destruct o; simpl.
  - unchanged.
  - unfold append.
    destruct (_closed (this w)) eqn:Hclosed; [unchanged|].
    destruct (_builder (this w)) as [b|] eqn:Hb; [|unchanged].
    destruct (Encoder.append b (_next_offset (this w)) r) as [[md|] b'];
      unchanged.
  - unfold set_producer_state.
    destruct (_ <? _); [unchanged|].
    destruct (_closed (this w)) eqn:Hclosed; [unchanged|].
    destruct (_builder (this w)) as [b|] eqn:Hb; unchanged.
  - unchanged.
  - unfold get_producer_epoch.
    destruct (_producer_epoch (this w)) eqn:Hep; unchanged.
  - unfold records.
    destruct (_closed (this w)) eqn:Hclosed; simpl; [|unchanged].
    destruct (_buffer (this w)) as [d|] eqn:Hbuf; [|unchanged].
    destruct (MemoryRecords.__init__ d); unchanged.
  - unfold close.
    destruct (_closed (this w)) eqn:Hclosed; simpl.
    + unchanged.
    + destruct (_builder (this w)) as [b|] eqn:Hb.
      * right. destruct (Encoder.build b) as [data b']. simpl.
        destruct (Z.eqb_spec (_magic (this w)) 2) as [Hm|Hm]; simpl;
          repeat split; rewrite ?filter_app; simpl;
          rewrite ?app_nil_r; auto.
      * unchanged.
  - unfold size_in_bytes.
    destruct (_closed (this w)) eqn:Hclosed; simpl.
    + destruct (_buffer (this w)) eqn:Hbuf; unchanged.
    + destruct (_builder (this w)) eqn:Hb; unchanged.
  - unfold compression_rate, bind, size_in_bytes.
    destruct (_closed (this w)) eqn:Hclosed; simpl; [|unchanged].
    destruct (_buffer (this w)) eqn:Hbuf; [|unchanged].
    destruct (_ =? 0); unchanged.
  - unfold is_full.
    destruct (_closed (this w)) eqn:Hclosed; [unchanged|].
    destruct (_builder (this w)) eqn:Hb; unchanged.
  - unchanged.
  - unfold buffer.
    destruct (_closed (this w)) eqn:Hclosed; unchanged.
Qed.

Lemma fresh_open (w0 : world) :
  fresh w0 ->
  _closed (this w0) = false /\ _builder (this w0) <> None /\
  calls w0 = [] /\
  (_magic (this w0) < 2 -> _producer_epoch (this w0) = Unset).
Proof.
  intros (magic & ct & bs & off & tx & pid & ep & sq & Hinit).
  revert Hinit. unfold __init__, py_assert.
  destruct (mem magic [0; 1; 2]); [|discriminate].
  destruct (mem ct [0; 1; 2; 3; 4]); [|discriminate].
  destruct (Z.leb_spec 2 magic);
    repeat match goal with
           | |- context [if ?c then _ else _] => destruct c
           end; intros Hnew; inversion Hnew; simpl;
    repeat split; try discriminate; try lia.
Qed.

Lemma step_built_once_closed (w : world) o :
  built_once_closed w ->
  built_once_closed (step w o) /\
  _closed (this (step w o)) = _closed (this w) || is_close o.
Proof.
  intros [Hc Ho]. unfold built_once_closed, builds in *.
  destruct (step_effect w o)
    as [(Hcl & Hb & Hf & _)|(-> & Hopen & Hcl & Hf & _)];
    rewrite Hcl, Hf.
  - split.
    + split; intros H; [apply Hc; assumption|].
      destruct (Ho H) as [Hb' Hn]. split; [apply Hb|]; assumption.
    + destruct (_closed (this w)) eqn:Hclosed; [reflexivity|].
      simpl. destruct o; try reflexivity.
      revert Hcl. simpl. unfold close. rewrite Hclosed. simpl.
      destruct (Ho eq_refl) as [Hb' _].
      destruct (_builder (this w)) as [b|]; [|congruence].
      destruct (Encoder.build b). simpl. discriminate.
  - split; [|rewrite Hopen; reflexivity].
    split; [|discriminate].
    intros _. rewrite length_app. simpl.
    destruct (Ho Hopen) as [_ Hn]. rewrite Hn. reflexivity.
Qed.

Lemma run_builds ops : forall w : world,
  built_once_closed w ->
  built_once_closed (run ops w) /\
  _closed (this (run ops w)) = _closed (this w) || existsb is_close ops.
Proof.
  induction ops as [|o ops IH]; intros w Hw; simpl.
  - rewrite orb_false_r. auto.
  - destruct (step_built_once_closed w o Hw) as [Hw' Hcl].
    destruct (IH _ Hw') as [Hr Hcl']. split; [exact Hr|].
    rewrite Hcl', Hcl, orb_assoc. reflexivity.
Qed.

(** Over a lifetime that starts at the constructor an open writer has its
    encoder. *)
Lemma open_lifetime_has_encoder (w0 : world) ops :
  fresh w0 ->
  _closed (this (run ops w0)) = false ->
  exists b, _builder (this (run ops w0)) = Some b.
Proof.
  intros Hfresh Hopen.
  destruct (fresh_open w0 Hfresh) as (Hopen0 & Hb & Hcalls & _).
  assert (Hw0 : built_once_closed w0).
  { split; [congruence|]. intros _. split; [exact Hb|].
    unfold builds. rewrite Hcalls. reflexivity. }
  destruct (run_builds ops w0 Hw0) as [[_ Ho] _].
  destruct (Ho Hopen) as [Hb' _].
  destruct (_builder (this (run ops w0))) as [b|]; [eauto|congruence].
Qed.

Lemma run_closed ops : forall w : world,
  _closed (this w) = true ->
  _closed (this (run ops w)) = true /\
  _buffer (this (run ops w)) = _buffer (this w) /\
  builds (run ops w) = builds w.
Proof.
  induction ops as [|o ops IH]; intros w Hw; simpl; [auto|].
  destruct (step_effect w o)
    as [(Hcl & _ & Hf & Hbuf & _)|(_ & Hopen & _)]; [|congruence].
  destruct (IH (step w o)) as (Hc' & Hb' & Hn'); [congruence|].
  split; [exact Hc'|]. split; [congruence|].
  rewrite Hn'. unfold builds. rewrite Hf. reflexivity.
Qed.

Lemma run_legacy_epoch ops : forall w : world,
  _magic (this w) < 2 -> _producer_epoch (this w) = Unset ->
  _magic (this (run ops w)) < 2 /\
  _producer_epoch (this (run ops w)) = Unset.
Proof.
  induction ops as [|o ops IH]; intros w Hm He; simpl; [auto|].
  destruct (step_effect w o)
    as [(_ & _ & _ & _ & Hmagic & Hep)
       |(_ & _ & _ & _ & Hmagic & [Hep|Hep])];
    try lia; apply IH; congruence.
Qed.

(** *** [set_producer_state] *)

(** C8. [set_producer_state] raises the unsupported-version error
    whenever the writer's magic is below 2 and the illegal-state error
    whenever the magic is at least 2 and the writer is closed; in both
    cases the writer (recorded producer id, logical offset, buffer,
    closed flag and all the rest) and the encoder are left as they were.
    When the writer is open with magic at least 2 it hands the four
    arguments to its encoder and records the new producer id; an open
    writer of a lifetime that starts at the constructor has its encoder. *)
Theorem set_producer_state_guards
        (producer_id producer_epoch base_sequence : Z)
        (is_transactional : bool) (w : world) :
  (_magic (this w) < 2 ->
   set_producer_state producer_id producer_epoch base_sequence
                      is_transactional w =
     Raise UnsupportedVersionError w) /\
  (2 <= _magic (this w) -> _closed (this w) = true ->
   set_producer_state producer_id producer_epoch base_sequence
                      is_transactional w =
     Raise IllegalStateError w) /\
  (2 <= _magic (this w) -> _closed (this w) = false ->
   forall b, _builder (this w) = Some b ->
   set_producer_state producer_id producer_epoch base_sequence
                      is_transactional w =
     Return tt
       {| this :=
            set_producer_id (Some producer_id)
              (set_builder
                 (Some (Encoder.set_producer_state
                          b producer_id producer_epoch base_sequence
                          is_transactional))
                 (this w));
          calls :=
            calls w ++ [CallSetProducerState producer_id producer_epoch
                                             base_sequence
                                             is_transactional] |}) /\
  (forall w0 ops,
      fresh w0 -> w = run ops w0 -> _closed (this w) = false ->
      exists b, _builder (this w) = Some b).
Proof.
  split; [|split; [|split]];
    [| | |intros w0 ops Hfresh -> Hopen;
          apply open_lifetime_has_encoder; assumption];
    unfold set_producer_state.
  - intros Hmagic.
    destruct (Z.ltb_spec (_magic (this w)) 2); [reflexivity|lia].
  - intros Hmagic Hclosed.
    destruct (Z.ltb_spec (_magic (this w)) 2); [lia|].
    rewrite Hclosed. reflexivity.
  - intros Hmagic Hclosed b Hb.
    destruct (Z.ltb_spec (_magic (this w)) 2); [lia|].
    rewrite Hclosed, Hb. reflexivity.
Qed.

(** *** [append] *)

(** C9. [append] returns none and changes nothing (no call reaches the
    encoder) whenever the writer is closed. On an open writer it passes
    the current logical offset and the record to the encoder; when the
    encoder reports no capacity it returns none and the logical offset
    stays; when the encoder accepts, it returns the encoder's metadata
    and the logical offset grows by exactly one (an open writer of a
    lifetime that starts at the constructor has its encoder). So over the
    lifetime of a writer constructed at [offset], with no [skip], the k-th
    accepted append was given the offset [offset + k - 1], and the logical
    offset is [offset] plus the number of accepted appends. *)
Theorem append_assigns_consecutive_offsets (r : record_args) (w : world) :
  (_closed (this w) = true -> append r w = Return None w) /\
  (_closed (this w) = false ->
   forall b metadata b',
     _builder (this w) = Some b ->
     Encoder.append b (_next_offset (this w)) r = (metadata, b') ->
     let called_w :=
       {| this := set_builder (Some b') (this w);
          calls := calls w ++
                   [CallAppend (_next_offset (this w)) r metadata] |} in
     match metadata with
     | None => append r w = Return None called_w
     | Some md =>
         append r w =
           Return (Some md)
             {| this := set_next_offset (_next_offset (this w) + 1)
                                        (this called_w);
                calls := calls called_w |}
     end) /\
  (forall w0 ops,
      fresh w0 -> w = run ops w0 -> _closed (this w) = false ->
      exists b, _builder (this w) = Some b) /\
  (forall magic compression_type batch_size offset transactional
          producer_id producer_epoch base_sequence w0 ops,
      __init__ magic compression_type batch_size offset transactional
               producer_id producer_epoch base_sequence = New w0 ->
      forallb (fun o => negb (is_skip o)) ops = true ->
      let accepted := accepted_offsets (calls (run ops w0)) in
      accepted =
        map (fun k => offset + Z.of_nat k - 1)
            (seq 1 (List.length accepted)) /\
      _next_offset (this (run ops w0)) =
        offset + Z.of_nat (List.length accepted)).
Proof.
  split; [|split; [|split]].
  - intros Hclosed. unfold append. rewrite Hclosed. reflexivity.
  - intros Hopen b metadata b' Hb Happ called_w. subst called_w.
    unfold append. rewrite Hopen, Hb, Happ.
    destruct metadata; reflexivity.
  - intros w0 ops Hfresh -> Hopen.
    apply open_lifetime_has_encoder; assumption.
  - intros magic ct bs offset tx pid ep sq w0 ops Hinit Hops.
    assert (Hfresh : calls w0 = [] /\ _next_offset (this w0) = offset).
    { revert Hinit. unfold __init__, py_assert.
      repeat match goal with
             | |- context [if ?c then _ else _] => destruct c
             end; intros Hnew; inversion Hnew; split; reflexivity. }
    destruct Hfresh as [Hcalls Hoff].
    apply run_accepted; try assumption.
    + rewrite Hcalls. reflexivity.
    + rewrite Hcalls, Hoff. simpl. lia.
Qed.

(** *** [close] *)

Lemma close_returns (w w1 : world) :
  close w = Return tt w1 ->
  _closed (this w1) = true /\ close w1 = Return tt w1.
Proof.
  unfold close at 1.
  destruct (_closed (this w)) eqn:Hclosed; simpl.
  - intros Hret. inversion Hret. subst w1. split; [reflexivity|].
    unfold close. simpl. reflexivity.
  - destruct (_builder (this w)) as [b|]; [|discriminate].
    destruct (Encoder.build b) as [data b'].
    intros Hret. inversion Hret. split; [reflexivity|].
    unfold close. simpl. reflexivity.
Qed.

(** C1. [close()] is idempotent. For every writer, once a [close()] has
    returned, a second [close()] returns and leaves the writer and the
    log of encoder calls exactly as they were, and whatever operations
    follow, the finalized buffer stays byte-identical and the encoder
    is not asked to build again. The first [close()] of an open writer
    asks the encoder for its size and to build, once each, and keeps the
    bytes built. Over a lifetime that starts at the constructor, every
    [close()] returns, and the encoder is asked to build exactly once if
    [close()] is ever called and never otherwise. *)
Theorem close_is_idempotent :
  (forall w w1 : world,
      close w = Return tt w1 ->
      close w1 = Return tt w1 /\
      forall ops,
        _buffer (this (run ops w1)) = _buffer (this w1) /\
        calls (step w1 Close) = calls w1 /\
        builds (run ops w1) = builds w1) /\
  (forall (w : world) b,
      _closed (this w) = false -> _builder (this w) = Some b ->
      exists w1,
        close w = Return tt w1 /\
        _closed (this w1) = true /\
        _buffer (this w1) = Some (fst (Encoder.build b)) /\
        calls w1 = calls w ++ [CallSize; CallBuild]) /\
  (forall w0 : world,
      fresh w0 ->
      forall ops,
        (exists w1, close (run ops w0) = Return tt w1) /\
        builds (run ops w0) =
          if existsb is_close ops then 1%nat else 0%nat).
Proof.
  split; [|split].
  - intros w w1 Hret.
    destruct (close_returns w w1 Hret) as [Hclosed Hagain].
    split; [exact Hagain|]. intros ops.
    destruct (run_closed ops w1 Hclosed) as (_ & Hbuf & Hn).
    split; [exact Hbuf|]. split; [|exact Hn].
    simpl. rewrite Hagain. reflexivity.
  - intros w b Hopen Hb. unfold close. rewrite Hopen, Hb. simpl.
    destruct (Encoder.build b) as [data b']. eexists.
    split; [reflexivity|]. simpl.
    destruct (_ =? 2); simpl; rewrite <- app_assoc; repeat split.
  - intros w0 Hfresh ops.
    destruct (fresh_open w0 Hfresh) as (Hopen & Hb & Hcalls & _).
    assert (Hw0 : built_once_closed w0).
    { split; [congruence|]. intros _. split; [exact Hb|].
      unfold builds. rewrite Hcalls. reflexivity. }
    destruct (run_builds ops w0 Hw0) as [[Hc Ho] Hcl].
    rewrite Hopen in Hcl. simpl in Hcl. split.
    + unfold close.
      destruct (_closed (this (run ops w0))) eqn:Hclosed; simpl;
        [eauto|].
      destruct (Ho eq_refl) as [Hb' _].
      destruct (_builder (this (run ops w0))) as [b|]; [|congruence].
      destruct (Encoder.build b). eauto.
    + rewrite <- Hcl.
      destruct (_closed (this (run ops w0))) eqn:Hclosed;
        [apply Hc|apply Ho]; reflexivity.
Qed.

(** *** The producer epoch of a legacy writer *)

(** C10. A writer constructed with magic below 2 gets no producer id
    (the attribute is none) and its producer-epoch attribute is never
    assigned, neither by the constructor nor by any later operation
    ([close] assigns it for magic 2 only, [set_producer_state] is
    refused): at any point of the writer's lifetime reading the
    [producer_epoch] property raises the attribute error. *)
Theorem legacy_producer_epoch_unset
        (magic compression_type batch_size offset : Z)
        (transactional : bool)
        (producer_id producer_epoch base_sequence : Z)
        (w0 : world) (ops : list op) :
  magic < 2 ->
  __init__ magic compression_type batch_size offset transactional
           producer_id producer_epoch base_sequence = New w0 ->
  _producer_id (this w0) = None /\
  _producer_epoch (this (run ops w0)) = Unset /\
  get_producer_epoch (run ops w0) = Raise AttributeError (run ops w0).
Proof.
  intros Hmagic Hinit.
  assert (H0 : _producer_id (this w0) = None /\
               _magic (this w0) < 2 /\
               _producer_epoch (this w0) = Unset).
  { revert Hinit. unfold __init__, py_assert.
    destruct (mem magic [0; 1; 2]); [|discriminate].
    destruct (mem compression_type [0; 1; 2; 3; 4]); [|discriminate].
    destruct (Z.leb_spec 2 magic); [lia|].
    destruct (negb transactional && (producer_id =? -1)); [|discriminate].
    intros Hnew. inversion Hnew. simpl. auto. }
  destruct H0 as (Hpid & Hm & Hep).
  destruct (run_legacy_epoch ops w0 Hm Hep) as [_ Hunset].
  split; [exact Hpid|]. split; [exact Hunset|].
  unfold get_producer_epoch. rewrite Hunset. reflexivity.
Qed.

End Writer.

(** *** The theorems at work on the test double *)

#[local] Existing Instance TestDouble.encoder.

Example open_writer_constructed :
  __init__ 1 0 100 5 false (-1) (-1) (-1) = New (TestDouble.open_writer 1 5) /\
  __init__ 2 0 100 0 false (-1) (-1) (-1) = New (TestDouble.open_writer 2 0).
Proof. split; reflexivity. Qed.

Lemma init_validation_witness :
  (exists msg,
      __init__ (encoder := TestDouble.encoder) 2 0 100 0 true (-1) (-1) (-1) =
        Fail (AssertionError msg)) /\
  (exists w,
      __init__ (encoder := TestDouble.encoder) 1 0 100 5 false (-1) (-1) (-1) =
        New w /\ _next_offset (this w) = 5).
Proof.
  split.
  - destruct (init_validation (encoder := TestDouble.encoder)
                              2 0 100 0 true (-1) (-1) (-1)) as [H _];
      [simpl; auto|simpl; auto|].
    apply H. left. split; [lia|]. left. split; reflexivity.
  - destruct (init_validation (encoder := TestDouble.encoder)
                              1 0 100 5 false (-1) (-1) (-1)) as [_ H];
      [simpl; auto|simpl; auto|].
    destruct H as (w & Hw & _ & _ & _ & _ & _ & _ & Hoff).
    + intros [[Hm _]|[_ [Ht|Hp]]]; [lia|discriminate|congruence].
    + exists w. split; assumption.
Defined.

Lemma set_producer_state_guards_witness :
  let legacy := TestDouble.open_writer 1 0 in
  let opened := TestDouble.open_writer 2 0 in
  let closed := step opened Close in
  set_producer_state 7 1 0 false legacy =
    Raise UnsupportedVersionError legacy /\
  set_producer_state 7 1 0 false closed = Raise IllegalStateError closed /\
  exists w, set_producer_state 7 1 0 false opened = Return tt w /\
            _producer_id (this w) = Some 7.
Proof.
  cbv zeta. split; [|split].
  - destruct (set_producer_state_guards 7 1 0 false
                (TestDouble.open_writer 1 0)) as [H _].
    apply H. simpl. lia.
  - destruct (set_producer_state_guards 7 1 0 false
                (step (TestDouble.open_writer 2 0) Close)) as [_ [H _]].
    apply H; [simpl; lia|reflexivity].
  - destruct (set_producer_state_guards 7 1 0 false
                (TestDouble.open_writer 2 0)) as [_ [_ [H _]]].
    eexists. split; [apply H; [simpl; lia|reflexivity|reflexivity]|].
    reflexivity.
Defined.

Lemma append_assigns_consecutive_offsets_witness :
  let w0 := TestDouble.open_writer 1 5 in
  let ops := [Append TestDouble.a_record; Append TestDouble.a_record;
              Close; Append TestDouble.a_record] in
  append TestDouble.a_record (step w0 Close) = Return None (step w0 Close) /\
  accepted_offsets (calls (run ops w0)) = [5; 6] /\
  _next_offset (this (run ops w0)) = 7.
Proof.
  cbv zeta. split.
  - destruct (append_assigns_consecutive_offsets
                TestDouble.a_record (step (TestDouble.open_writer 1 5) Close))
      as [H _].
    apply H. reflexivity.
  - destruct (append_assigns_consecutive_offsets
                TestDouble.a_record (TestDouble.open_writer 1 5))
      as [_ [_ [_ H]]].
    exact (H 1 0 100 5 false (-1) (-1) (-1) (TestDouble.open_writer 1 5)
             [Append TestDouble.a_record; Append TestDouble.a_record;
              Close; Append TestDouble.a_record]
             eq_refl eq_refl).
Defined.

Lemma close_is_idempotent_witness :
  let w0 := TestDouble.open_writer 2 0 in
  let w1 := step (step w0 (Append TestDouble.a_record)) Close in
  close w1 = Return tt w1 /\
  _buffer (this w1) = Some (repeat x00 10) /\
  _buffer (this (run [Append TestDouble.a_record; Close] w1)) =
    _buffer (this w1) /\
  builds (run [Append TestDouble.a_record; Close; Close;
               Append TestDouble.a_record; Close] w0) = 1%nat.
Proof.
  cbv zeta.
  destruct (close_is_idempotent (encoder := TestDouble.encoder))
    as [Hsecond [_ Hlife]].
  assert (Hfirst : close (step (TestDouble.open_writer 2 0)
                               (Append TestDouble.a_record)) =
                   Return tt (step (step (TestDouble.open_writer 2 0)
                                         (Append TestDouble.a_record)) Close))
    by reflexivity.
  destruct (Hsecond _ _ Hfirst) as [Hagain Hlater].
  split; [exact Hagain|]. split; [reflexivity|]. split.
  - apply (Hlater [Append TestDouble.a_record; Close]).
  - apply (Hlife (TestDouble.open_writer 2 0)).
    exists 2, 0, 100, 0, false, (-1), (-1), (-1). reflexivity.
Defined.

Lemma legacy_producer_epoch_unset_witness :
  let w := run [Append TestDouble.a_record; Close]
               (TestDouble.open_writer 1 5) in
  get_producer_epoch w = Raise AttributeError w.
Proof.
  cbv zeta.
  apply (legacy_producer_epoch_unset (encoder := TestDouble.encoder)
           1 0 100 5 false (-1) (-1) (-1) (TestDouble.open_writer 1 5)
           [Append TestDouble.a_record; Close]);
    [lia|reflexivity].
Defined.

End MemoryRecordsBuilderSpec.

(** * More properties of the reader *)

Module MemoryRecordsMore.

Import MemoryRecords Batches Scans MemoryRecordsSpec.

(** *** A buffer that ends in a partial batch *)

Lemma cache_next_cursor_tail pre b todo tail :
  Forall framed todo -> partial tail ->
  _cache_next (cursor_tail pre (b :: todo) tail) =
    Return tt (cursor_tail (pre ++ b) todo tail).
Proof.
  intros Hfr Htail. destruct todo as [|b' todo].
  - unfold cursor_tail, at_batch. simpl concat.
    rewrite app_nil_r. simpl app. rewrite <- len_app.
    rewrite (cache_next_partial _ (pre ++ b) tail);
      [|rewrite <- app_assoc; reflexivity|assumption].
    rewrite <- app_assoc. reflexivity.
  - apply Forall_cons_iff in Hfr as [Hb' _].
    unfold cursor_tail, at_batch. simpl concat.
    rewrite <- len_app.
    rewrite (cache_next_framed _ (pre ++ b) b' (concat todo ++ tail)).
    + rewrite <- !app_assoc. reflexivity.
    + rewrite <- !app_assoc. reflexivity.
    + assumption.
Qed.

Lemma next_batch_cursor_tail ov pre b todo tail :
  5 <= ov -> well_formed ov b -> Forall framed todo -> partial tail ->
  next_batch ov (cursor_tail pre (b :: todo) tail) =
    Return (Some (decoder (mk_memoryview (pre ++ concat (b :: todo) ++ tail)
                                         (len pre) (len b))))
           (cursor_tail (pre ++ b) todo tail).
Proof.
  intros Hov [Hb Hmin] Hfr Htail.
  apply next_batch_accepts; try assumption.
  - reflexivity.
  - unfold mv_len. simpl concat. rewrite <- app_assoc.
    rewrite tobytes_middle. assumption.
  - apply cache_next_cursor_tail; assumption.
Qed.

Lemma next_batches_cursor_tail ov (Hov : 5 <= ov) tail (Htail : partial tail) :
  forall k todo pre,
    Forall (well_formed ov) todo -> (k <= List.length todo)%nat ->
    next_batches ov k (cursor_tail pre todo tail) =
      Return (map (fun v => Some (decoder v))
                  (firstn k (views (pre ++ concat todo ++ tail) pre todo)))
             (cursor_tail (pre ++ concat (firstn k todo)) (skipn k todo) tail).
Proof.
  induction k as [|k IH]; intros todo pre Hwf Hk.
  - simpl. rewrite app_nil_r. reflexivity.
  - destruct todo as [|b todo]; [simpl in Hk; lia|].
    apply Forall_cons_iff in Hwf as [Hb Hwf].
    cbn [next_batches].
    rewrite next_batch_cursor_tail
      by (try assumption; eapply well_formed_framed; eassumption).
    rewrite IH by (try assumption; simpl in Hk; lia).
    simpl. rewrite <- !app_assoc. reflexivity.
Qed.

Lemma valid_bytes_cursor_tail pre todo tail fuel :
  Forall framed todo -> partial tail -> (List.length todo <= fuel)%nat ->
  exists self',
    valid_bytes fuel (cursor_tail pre todo tail) =
      Some (Return (size_in_bytes (cursor_tail pre todo tail) - len tail)
                   self').
Proof.
  intros Hfr Htail Hfuel. destruct todo as [|b todo].
  - eexists. reflexivity.
  - apply Forall_cons_iff in Hfr as [Hb Hfr].
    eexists. unfold cursor_tail, at_batch, size_in_bytes. cbn [_buffer].
    rewrite <- len_app.
    rewrite (valid_bytes_frames todo _ (pre ++ b) tail).
    + reflexivity.
    + simpl. rewrite <- !app_assoc. reflexivity.
    + assumption.
    + assumption.
    + simpl in Hfuel. lia.
Qed.

Lemma init_cursor_tail bs tail :
  Forall framed bs -> partial tail ->
  __init__ (concat bs ++ tail) = Return tt (cursor_tail [] bs tail).
Proof.
  intros Hfr Htail. unfold __init__. destruct bs as [|b bs].
  - change 0 with (len (@nil byte)).
    rewrite (cache_next_partial _ [] tail); [reflexivity|reflexivity|assumption].
  - apply Forall_cons_iff in Hfr as [Hb _].
    change 0 with (len (@nil byte)).
    rewrite (cache_next_framed _ [] b (concat bs ++ tail));
      [reflexivity| |assumption].
    simpl. rewrite <- app_assoc. reflexivity.
Qed.

(** X1. Over N well-formed batches followed by a partial batch (fewer than
    12 bytes, or a header that declares more bytes than follow), the reader
    yields exactly the N batches in order, then has no next batch, without
    raising; and at every point of the iteration [valid_bytes()] returns
    [size_in_bytes()] minus the length of the partial batch. *)
Theorem partial_batch_is_left_over
        (RECORD_OVERHEAD_V0 : Z) (bs : list (list byte)) (tail : list byte) :
  5 <= RECORD_OVERHEAD_V0 ->
  Forall (well_formed RECORD_OVERHEAD_V0) bs ->
  partial tail ->
  let buffer := concat bs ++ tail in
  let N := List.length bs in
  exists r0,
    __init__ buffer = Return tt r0 /\
    map tobytes (views buffer [] bs) = bs /\
    forall k, (k <= N)%nat ->
      exists rk,
        next_batches RECORD_OVERHEAD_V0 k r0 =
          Return (map (fun v => Some (decoder v))
                      (firstn k (views buffer [] bs))) rk /\
        has_next rk = (k <? N)%nat /\
        (k = N -> next_batch RECORD_OVERHEAD_V0 rk = Return None rk) /\
        forall fuel, (N - k <= fuel)%nat ->
          exists rk',
            valid_bytes fuel rk =
              Some (Return (size_in_bytes rk - len tail) rk').
Proof.
  intros Hov Hwf Htail buffer N. subst buffer N.
  pose proof (well_formed_framed _ _ Hwf) as Hfr.
  exists (cursor_tail [] bs tail).
  split; [apply init_cursor_tail; assumption|].
  split; [apply (tobytes_views bs _ [] tail); reflexivity|].
  intros k Hk.
  exists (cursor_tail ([] ++ concat (firstn k bs)) (skipn k bs) tail).
  split; [apply (next_batches_cursor_tail _ Hov tail Htail k bs []); assumption|].
  assert (Hrest : List.length (skipn k bs) = (List.length bs - k)%nat)
    by apply length_skipn.
  split.
  { destruct (skipn k bs) as [|b rest]; simpl in Hrest.
    - destruct (Nat.ltb_spec k (List.length bs)); [lia|reflexivity].
    - destruct (Nat.ltb_spec k (List.length bs)); [reflexivity|lia]. }
  split.
  { intros ->. rewrite skipn_all. reflexivity. }
  intros fuel Hfuel. apply valid_bytes_cursor_tail.
  - apply Forall_forall. intros b Hb.
    rewrite Forall_forall in Hfr. apply Hfr.
    rewrite <- (firstn_skipn k bs). apply in_or_app. right. exact Hb.
  - assumption.
  - rewrite Hrest. exact Hfuel.
Qed.

Lemma test_partial_batch : partial TestDouble.partial_batch.
Proof.
  right. exists 100. split; [reflexivity|vm_compute; reflexivity].
Qed.

Lemma partial_batch_is_left_over_witness :
  exists r0 r2 r2',
    __init__ TestDouble.streamed_buffer = Return tt r0 /\
    next_batches 14 2 r0 =
      Return [Some (LegacyRecordBatch
                      (mk_memoryview TestDouble.streamed_buffer 0 26) 0);
              Some (DefaultRecordBatch
                      (mk_memoryview TestDouble.streamed_buffer 26 26))] r2 /\
    has_next r2 = false /\
    valid_bytes 0 r2 = Some (Return (size_in_bytes r2 - 15) r2').
Proof.
  destruct (partial_batch_is_left_over
              14 [TestDouble.legacy_batch; TestDouble.default_batch]
              TestDouble.partial_batch)
    as [r0 [Hinit [_ H]]];
    [lia|exact test_batches_well_formed|exact test_partial_batch|].
  destruct (H 2%nat) as [r2 [Hnext [Hhas [_ Hvalid]]]]; [simpl; lia|].
  destruct (Hvalid 0%nat) as [r2' Hv]; [simpl; lia|].
  exists r0, r2, r2'.
  split; [exact Hinit|]. split; [rewrite Hnext; reflexivity|].
  split; [exact Hhas|].
  rewrite Hv. reflexivity.
Defined.

(** *** Buffers too short for a header, and batches too short for a record *)

(** X2. A buffer of fewer than 12 bytes (the empty buffer included) holds
    no batch: the reader is constructed without error with all the bytes
    left over, [has_next()] is false, [next_batch()] returns none,
    iterating stops at once, and [valid_bytes()] is 0. *)
Theorem short_buffer_has_no_batch
        (RECORD_OVERHEAD_V0 : Z) (bytes_data : list byte) (fuel : nat) :
  len bytes_data < 12 ->
  let r := mk bytes_data 0 None (Some (len bytes_data)) in
  __init__ bytes_data = Return tt r /\
  has_next r = false /\
  next_batch RECORD_OVERHEAD_V0 r = Return None r /\
  __next__ RECORD_OVERHEAD_V0 r = Raise StopIteration r /\
  valid_bytes fuel r = Some (Return 0 r).
Proof.
  intros Hshort r. subst r. split.
  - unfold __init__. rewrite cache_next_truncated; simpl; [|lia].
    rewrite Z.sub_0_r. reflexivity.
  - repeat split. unfold valid_bytes, valid_bytes_return. simpl.
    rewrite Z.sub_diag. reflexivity.
Qed.

Lemma short_buffer_has_no_batch_witness :
  __init__ [x01; x02; x03] = Return tt (mk [x01; x02; x03] 0 None (Some 3)) /\
  valid_bytes 0 (mk [x01; x02; x03] 0 None (Some 3)) =
    Some (Return 0 (mk [x01; x02; x03] 0 None (Some 3))).
Proof.
  destruct (short_buffer_has_no_batch 14 [x01; x02; x03] 0)
    as (Hinit & _ & _ & _ & Hvalid); [vm_compute; reflexivity|].
  split; [exact Hinit|exact Hvalid].
Defined.

Lemma next_batches_cursor_prefix ov (Hov : 5 <= ov) : forall k todo pre,
  Forall framed todo ->
  Forall (well_formed ov) (firstn k todo) ->
  (k <= List.length todo)%nat ->
  next_batches ov k (cursor pre todo) =
    Return (map (fun v => Some (decoder v))
                (firstn k (views (pre ++ concat todo) pre todo)))
           (cursor (pre ++ concat (firstn k todo)) (skipn k todo)).
Proof.
  induction k as [|k IH]; intros todo pre Hfr Hwf Hk.
  - simpl. rewrite app_nil_r. reflexivity.
  - destruct todo as [|b todo]; [simpl in Hk; lia|].
    apply Forall_cons_iff in Hfr as [Hb Hfr].
    simpl firstn in Hwf. apply Forall_cons_iff in Hwf as [Hwb Hwf].
    cbn [next_batches].
    rewrite next_batch_cursor by assumption.
    rewrite IH by (try assumption; simpl in Hk; lia).
    simpl. rewrite <- !app_assoc. reflexivity.
Qed.

(** X3. When N well-formed batches are followed by a batch that is framed
    (its length field matches its size) but shorter than the minimum size,
    the reader yields the N batches, then still reports a next batch, and
    the next [next_batch()] raises the corrupt-record error; [valid_bytes()]
    does not look at sizes and counts the short batch as valid: it returns
    [size_in_bytes()]. *)
Theorem short_batch_is_corrupt_but_valid
        (RECORD_OVERHEAD_V0 : Z) (bs : list (list byte)) (short : list byte) :
  5 <= RECORD_OVERHEAD_V0 ->
  Forall (well_formed RECORD_OVERHEAD_V0) bs ->
  framed short ->
  len short < MIN_SLICE RECORD_OVERHEAD_V0 ->
  let buffer := concat (bs ++ [short]) in
  exists r0 rN,
    __init__ buffer = Return tt r0 /\
    next_batches RECORD_OVERHEAD_V0 (List.length bs) r0 =
      Return (map (fun v => Some (decoder v)) (views buffer [] bs)) rN /\
    has_next rN = true /\
    next_batch RECORD_OVERHEAD_V0 rN = Raise CorruptRecordError rN /\
    forall fuel, (1 <= fuel)%nat ->
      exists rN', valid_bytes fuel rN = Some (Return (size_in_bytes rN) rN').
Proof.
  intros Hov Hwf Hshort Hlen buffer. subst buffer.
  pose proof (well_formed_framed _ _ Hwf) as Hfr.
  assert (Hall : Forall framed (bs ++ [short]))
    by (apply Forall_app; split; [assumption|repeat constructor; assumption]).
  assert (Hfirst : firstn (List.length bs) (bs ++ [short]) = bs)
    by (rewrite firstn_app, Nat.sub_diag, firstn_all; simpl; apply app_nil_r).
  assert (Hskip : skipn (List.length bs) (bs ++ [short]) = [short])
    by (rewrite skipn_app, Nat.sub_diag, skipn_all; reflexivity).
  exists (cursor [] (bs ++ [short])),
         (cursor ([] ++ concat bs) [short]).
  split; [apply init_cursor; assumption|]. split.
  { rewrite (next_batches_cursor_prefix _ Hov (List.length bs) (bs ++ [short]) []);
      [|assumption|rewrite Hfirst; assumption|rewrite length_app; lia].
    rewrite Hfirst, Hskip. f_equal. f_equal. simpl app.
    clear. generalize (concat (bs ++ [short])) as buffer, (@nil byte) as pre.
    induction bs as [|b bs IH]; intros; simpl; [reflexivity|].
    f_equal. apply IH. }
  split; [reflexivity|]. split.
  { unfold next_batch, cursor, at_batch. cbn [_next_slice].
    unfold mv_len. simpl concat. rewrite tobytes_middle.
    destruct (Z.ltb_spec (len short) (MIN_SLICE RECORD_OVERHEAD_V0));
      [reflexivity|lia]. }
  intros fuel Hfuel. apply valid_bytes_cursor.
  - repeat constructor; assumption.
  - simpl. lia.
Qed.

Lemma short_batch_is_corrupt_but_valid_witness :
  exists r0 r1,
    __init__ (concat ([TestDouble.legacy_batch] ++ [repeat x00 12])) =
      Return tt r0 /\
    next_batches 14 1 r0 =
      Return [Some (LegacyRecordBatch
                      (mk_memoryview
                         (concat ([TestDouble.legacy_batch] ++ [repeat x00 12]))
                         0 26) 0)] r1 /\
    has_next r1 = true /\
    next_batch 14 r1 = Raise CorruptRecordError r1.
Proof.
  destruct (short_batch_is_corrupt_but_valid
              14 [TestDouble.legacy_batch] (repeat x00 12))
    as (r0 & r1 & Hinit & Hnext & Hhas & Hcorrupt & _);
    [lia
    |repeat constructor; vm_compute; discriminate
    |reflexivity
    |vm_compute; reflexivity|].
  exists r0, r1. split; [exact Hinit|]. split; [|split; assumption].
  simpl List.length in Hnext. rewrite Hnext. reflexivity.
Defined.

(** *** The magic byte *)

Lemma byte_val_range b : 0 <= byte_val b <= 255.
Proof.
  unfold byte_val. pose proof (Stdlib.Strings.Byte.to_N_bounded b). lia.
Qed.

(** X5. The magic byte is read as a signed byte. When [next_batch()]
    accepts the cached view and the scan step returns, a byte of 0 or 1 at
    offset 16 gives a Legacy decoder with that magic, a byte from 2 to 127
    gives a Default decoder, and a byte from 128 to 255 gives a Legacy
    decoder again, with the negative magic byte - 256. *)
Theorem magic_byte_is_signed
        (RECORD_OVERHEAD_V0 : Z) (self self' : t) (v : memoryview) :
  5 <= RECORD_OVERHEAD_V0 ->
  _next_slice self = Some v ->
  MIN_SLICE RECORD_OVERHEAD_V0 <= mv_len v ->
  _cache_next self = Return tt self' ->
  let magic := byte_val (nth 16 (tobytes v) x00) in
  (magic <= 1 ->
   next_batch RECORD_OVERHEAD_V0 self =
     Return (Some (LegacyRecordBatch v magic)) self') /\
  (2 <= magic <= 127 ->
   next_batch RECORD_OVERHEAD_V0 self =
     Return (Some (DefaultRecordBatch v)) self') /\
  (128 <= magic ->
   next_batch RECORD_OVERHEAD_V0 self =
     Return (Some (LegacyRecordBatch v (magic - 256))) self').
Proof.
  intros Hov Hv Hlen Hscan magic.
  pose proof (byte_val_range (nth 16 (tobytes v) x00)) as Hrange.
  rewrite (next_batch_accepts _ _ _ _ Hov Hv Hlen Hscan).
  unfold decoder, magic_of, to_signed. fold magic.
  change (2 ^ (8 - 1)) with 128. change (2 ^ 8) with 256.
  repeat split; intros Hm.
  - destruct (Z.ltb_spec magic 128); [|lia].
    destruct (Z.leb_spec magic 1); [reflexivity|lia].
  - destruct (Z.ltb_spec magic 128); [|lia].
    destruct (Z.leb_spec magic 1); [lia|reflexivity].
  - destruct (Z.ltb_spec magic 128); [lia|].
    destruct (Z.leb_spec (magic - 256) 1); [reflexivity|lia].
Qed.

Lemma magic_byte_is_signed_witness :
  let buffer := repeat x00 8 ++ [x00; x00; x00; x0e] ++ repeat x00 4
                       ++ [xff] ++ repeat x00 9 in
  let v := mk_memoryview buffer 0 26 in
  next_batch 14 (mk buffer 26 (Some v) None) =
    Return (Some (LegacyRecordBatch v (-1))) (mk buffer 26 None (Some 0)).
Proof.
  cbv zeta.
  apply (magic_byte_is_signed 14); try reflexivity; try lia;
    vm_compute; discriminate.
Defined.

(** *** What every reachable reader keeps *)

Lemma adjust_index_bounds i n : 0 <= n -> 0 <= adjust_index i n <= n.
Proof.
  intros Hn. unfold adjust_index.
  destruct (Z.ltb_spec i 0).
  - destruct (Z.ltb_spec (i + n) 0); lia.
  - destruct (Z.ltb_spec n i); lia.
Qed.

Lemma memoryview_slice_window buffer start stop :
  window_of buffer (memoryview_slice buffer start stop).
Proof.
  pose proof (len_nonneg buffer) as Hn.
  pose proof (adjust_index_bounds start _ Hn).
  pose proof (adjust_index_bounds stop _ Hn).
  unfold window_of, memoryview_slice. simpl. repeat split; lia.
Qed.

Lemma window_mv_len buffer v : window_of buffer v -> mv_len v = mv_length v.
Proof.
  intros (Hobj & Hoff & Hlen & Hend).
  unfold mv_len, tobytes, len in *. rewrite Hobj.
  rewrite length_firstn, length_skipn. lia.
Qed.

Lemma cache_next_within self :
  within_buffer self -> within_buffer (state_of (_cache_next self)).
Proof.
  intros [Hpos Hwin]. unfold _cache_next. cbv zeta.
  destruct (_ <? _); [split; [exact Hpos|discriminate]|].
  destruct (unpack_from_i _ _) as [length|]; [|split; assumption].
  destruct (Z.gtb_spec (_pos self + LOG_OVERHEAD + length) (len (_buffer self)));
    [split; [exact Hpos|discriminate]|].
  split; simpl; [assumption|].
  intros v Hv. inversion Hv. apply memoryview_slice_window.
Qed.

Lemma valid_bytes_loop_within fuel : forall self r,
  within_buffer self ->
  valid_bytes_loop fuel self = Some r -> within_buffer (state_of r).
Proof.
  induction fuel as [|fuel IH]; intros self r Hw; simpl.
  - destruct (_remaining_bytes self); [|discriminate].
    intros E. inversion E. exact Hw.
  - destruct (_remaining_bytes self).
    + intros E. inversion E. exact Hw.
    + pose proof (cache_next_within self Hw) as Hk.
      destruct (_cache_next self) as [[] s|e s]; simpl in Hk.
      * apply IH. exact Hk.
      * intros E. inversion E. exact Hk.
Qed.

Lemma next_batch_buffer ov self :
  _buffer (state_of (next_batch ov self)) = _buffer self.
Proof.
  unfold next_batch.
  destruct (_next_slice self); [|reflexivity].
  destruct (_ <? _); [reflexivity|].
  pose proof (cache_next_buffer self) as Hb.
  destruct (_cache_next self) as [[] s|e s]; simpl in Hb; [|exact Hb].
  destruct (unpack_from_b _ _); [|exact Hb].
  destruct (_ <=? _); exact Hb.
Qed.

Lemma step_buffer ov fuel o self self' :
  step ov fuel o self = Some self' -> _buffer self' = _buffer self.
Proof.
  destruct o; simpl; intros Hstep.
  - inversion Hstep. reflexivity.
  - inversion Hstep. apply next_batch_buffer.
  - unfold valid_bytes, valid_bytes_return in Hstep.
    destruct (_remaining_bytes self).
    + inversion Hstep. reflexivity.
    + destruct (valid_bytes_loop fuel self) as [[[] s|e s]|] eqn:Hloop;
        try discriminate;
        pose proof (valid_bytes_loop_buffer _ _ _ Hloop) as Hb;
        simpl in Hb, Hstep.
      * destruct (_remaining_bytes s); inversion Hstep; exact Hb.
      * inversion Hstep. subst self'. exact Hb.
  - inversion Hstep. reflexivity.
Qed.

Lemma step_within ov fuel o self self' :
  within_buffer self ->
  step ov fuel o self = Some self' -> within_buffer self'.
Proof.
  intros Hw. destruct o; simpl; intros Hstep.
  - inversion Hstep. subst self'. exact Hw.
  - inversion Hstep. subst self'. clear Hstep. unfold next_batch.
    destruct (_next_slice self); [|exact Hw].
    destruct (_ <? _); [exact Hw|].
    pose proof (cache_next_within self Hw) as Hk.
    destruct (_cache_next self) as [[] s|e s]; simpl in Hk; [|exact Hk].
    destruct (unpack_from_b _ _); [|exact Hk].
    destruct (_ <=? _); exact Hk.
  - unfold valid_bytes, valid_bytes_return in Hstep.
    destruct (_remaining_bytes self).
    + inversion Hstep. subst self'. exact Hw.
    + destruct (valid_bytes_loop fuel self) as [[[] s|e s]|] eqn:Hloop;
        try discriminate.
      * pose proof (valid_bytes_loop_buffer _ _ _ Hloop) as Hb.
        simpl in Hb, Hstep.
        assert (Hr : within_buffer (restore s (_next_slice self) (_pos self))).
        { destruct Hw as [Hpos Hwin]. split; simpl; rewrite Hb; assumption. }
        destruct (_remaining_bytes s); inversion Hstep; subst self'; exact Hr.
      * inversion Hstep. subst self'.
        apply (valid_bytes_loop_within _ _ _ Hw Hloop).
  - inversion Hstep. subst self'. exact Hw.
Qed.

(** X6. No operation of a reader replaces or changes its buffer, and in
    every state a reader reaches from its construction, whatever the bytes
    (negative length fields included) and whether operations return or
    raise, the position is at most the buffer length and the cached
    lookahead is a window of that very buffer, within its bounds, whose
    [len] is its recorded length. *)
Theorem lookahead_stays_within_buffer (RECORD_OVERHEAD_V0 : Z) (self : t) :
  reachable RECORD_OVERHEAD_V0 self ->
  _pos self <= len (_buffer self) /\
  (forall v, _next_slice self = Some v ->
             window_of (_buffer self) v /\ mv_len v = mv_length v) /\
  (forall fuel o self',
      step RECORD_OVERHEAD_V0 fuel o self = Some self' ->
      _buffer self' = _buffer self /\ size_in_bytes self' = size_in_bytes self).
Proof.
  intros Hreach.
  assert (Hw : within_buffer self).
  { induction Hreach as [bytes_data|self fuel o self' Hreach IH Hstep].
    - unfold __init__. apply cache_next_within.
      split; simpl; [apply len_nonneg|discriminate].
    - eapply step_within; eassumption. }
  destruct Hw as [Hpos Hwin]. split; [exact Hpos|]. split.
  - intros v Hv. split; [apply Hwin; exact Hv|].
    eapply window_mv_len. apply Hwin. exact Hv.
  - intros fuel o self' Hstep.
    pose proof (step_buffer _ _ _ _ _ Hstep) as Hb.
    split; [exact Hb|]. unfold size_in_bytes. rewrite Hb. reflexivity.
Qed.

Lemma lookahead_stays_within_buffer_witness :
  let self := state_of (__init__ TestDouble.negative_length_buffer) in
  _pos self <= len (_buffer self) /\
  forall v, _next_slice self = Some v ->
            window_of (_buffer self) v /\ mv_len v = mv_length v.
Proof.
  cbv zeta.
  destruct (lookahead_stays_within_buffer
              14 (state_of (__init__ TestDouble.negative_length_buffer)))
    as (Hpos & Hwin & _); [apply reach_init|].
  split; [exact Hpos|exact Hwin].
Defined.

(** *** [valid_bytes] during the iteration *)

Lemma valid_bytes_loop_known fuel self r :
  _remaining_bytes self = Some r ->
  valid_bytes_loop fuel self = Some (Return tt self).
Proof. intros Hr. destruct fuel; simpl; rewrite Hr; reflexivity. Qed.

Lemma leftover_is_after_valid_bytes fuel self v self' :
  _remaining_bytes self = None ->
  valid_bytes fuel self = Some (Return v self') ->
  exists r, leftover_is self' r /\ v = len (_buffer self') - r.
Proof.
  intros Hnone. unfold valid_bytes, valid_bytes_return. rewrite Hnone.
  destruct (valid_bytes_loop fuel self) as [[[] s|e s]|] eqn:Hloop;
    try discriminate.
  pose proof (valid_bytes_loop_buffer _ _ _ Hloop) as Hb. simpl in Hb.
  cbn [_remaining_bytes restore _buffer].
  destruct (_remaining_bytes s) as [r|] eqn:Hs; [|discriminate].
  intros E. inversion E. exists r. split; [|reflexivity].
  split; [simpl; exact Hs|].
  exists fuel, s. split; [|exact Hs].
  unfold forget, restore. simpl. rewrite Hb.
  destruct self as [buf pos nx rem]. simpl in *. subst rem. exact Hloop.
Qed.

Lemma leftover_is_next_batch ov self r b s2 :
  leftover_is self r ->
  next_batch ov self = Return b s2 ->
  leftover_is s2 r.
Proof.
  intros Hleft. pose proof Hleft as [Hr (fuel & s & Hloop & Hs)].
  unfold next_batch.
  destruct (_next_slice self) as [v|] eqn:Hv;
    [|intros E; inversion E; subst s2; exact Hleft].
  destruct (_ <? _); [discriminate|].
  destruct (_cache_next self) as [[] sB|e sB] eqn:HscanB; [|discriminate].
  intros Hret.
  assert (s2 = sB).
  { destruct (unpack_from_b _ _); [|discriminate].
    destruct (_ <=? _); inversion Hret; reflexivity. }
  subst s2. clear Hret.
  destruct fuel as [|fuel]; [simpl in Hloop; discriminate|].
  simpl in Hloop.
  destruct self as [buf pos nx rem]. simpl in *. subst rem nx.
  unfold forget in Hloop. simpl in Hloop.
  unfold _cache_next in HscanB, Hloop. cbv zeta in HscanB, Hloop.
  simpl in HscanB, Hloop.
  destruct (len buf - pos <? LOG_OVERHEAD) eqn:Hshort.
  - inversion HscanB. subst sB.
    rewrite (valid_bytes_loop_known _ _ (len buf - pos)) in Hloop
      by reflexivity.
    inversion Hloop. subst s. simpl in Hs. inversion Hs. subst r.
    split; [reflexivity|].
    exists 1%nat. eexists. unfold forget, set_truncated. simpl.
    unfold _cache_next. cbv zeta. simpl. rewrite Hshort.
    split; reflexivity.
  - destruct (unpack_from_i buf (pos + LENGTH_OFFSET)) as [length|] eqn:Hread;
      [|discriminate].
    destruct (pos + LOG_OVERHEAD + length >? len buf) eqn:Hlong.
    + inversion HscanB. subst sB.
      rewrite (valid_bytes_loop_known _ _ (len buf - pos)) in Hloop
        by reflexivity.
      inversion Hloop. subst s. simpl in Hs. inversion Hs. subst r.
      split; [reflexivity|].
      exists 1%nat. eexists. unfold forget, set_truncated. simpl.
      unfold _cache_next. cbv zeta. simpl. rewrite Hshort, Hread, Hlong.
      split; reflexivity.
    + inversion HscanB. subst sB.
      split; [reflexivity|].
      exists fuel, s. split; [exact Hloop|exact Hs].
Qed.

Lemma leftover_is_next_batches ov n : forall self r bs s,
  leftover_is self r ->
  next_batches ov n self = Return bs s ->
  leftover_is s r /\ _buffer s = _buffer self.
Proof.
  induction n as [|n IH]; intros self r bs s Hleft; simpl.
  - intros E. inversion E. subst s. auto.
  - pose proof (next_batch_buffer ov self) as Hb.
    destruct (next_batch ov self) as [b s1|e s1] eqn:Hnext; [|discriminate].
    simpl in Hb.
    pose proof (leftover_is_next_batch _ _ _ _ _ Hleft Hnext) as Hleft1.
    destruct (next_batches ov n s1) as [bs' s'|e s'] eqn:Hrest; [|discriminate].
    intros E. inversion E. subst s'.
    destruct (IH _ _ _ _ Hleft1 Hrest) as [Hl Hb']. split; [exact Hl|congruence].
Qed.

(** X7. Once [valid_bytes()] has scanned the buffer and returned, its
    answer is kept: asked again, at once or after any number of
    [next_batch()] calls that returned, it returns the same number without
    scanning (no loop iteration is needed) and leaves the reader as it
    is. *)
Theorem valid_bytes_answer_is_kept
        (RECORD_OVERHEAD_V0 : Z) (self self' s : t) (fuel n : nat) (v : Z)
        (bs : list (option Batch)) :
  _remaining_bytes self = None ->
  valid_bytes fuel self = Some (Return v self') ->
  next_batches RECORD_OVERHEAD_V0 n self' = Return bs s ->
  valid_bytes 0 s = Some (Return v s).
Proof.
  intros Hnone Hvalid Hnext.
  destruct (leftover_is_after_valid_bytes _ _ _ _ Hnone Hvalid)
    as (r & Hleft & Hv).
  destruct (leftover_is_next_batches _ _ _ _ _ _ Hleft Hnext)
    as [[Hr _] Hb].
  unfold valid_bytes, valid_bytes_return. rewrite Hr, Hb, Hv. reflexivity.
Qed.

Lemma valid_bytes_answer_is_kept_witness :
  let r0 := state_of (__init__ TestDouble.streamed_buffer) in
  exists r1 bs r2,
    valid_bytes 2 r0 = Some (Return 52 r1) /\
    next_batches 14 2 r1 = Return bs r2 /\
    valid_bytes 0 r2 = Some (Return 52 r2).
Proof.
  cbv zeta. do 3 eexists.
  split; [reflexivity|]. split; [reflexivity|].
  eapply (valid_bytes_answer_is_kept
            14 (state_of (__init__ TestDouble.streamed_buffer)) _ _ 2 2 52);
    reflexivity.
Defined.

(** *** [valid_bytes] never passes the size of the buffer *)

Lemma cache_next_leftover self :
  _pos self <= len (_buffer self) -> leftover_nonneg self ->
  leftover_nonneg (state_of (_cache_next self)).
Proof.
  intros Hpos Hleft. unfold _cache_next. cbv zeta.
  destruct (_ <? _);
    [intros r Hr; simpl in Hr; inversion Hr; lia|].
  destruct (unpack_from_i _ _) as [length|]; [|exact Hleft].
  destruct (_ >? _); [intros r Hr; simpl in Hr; inversion Hr; lia|].
  exact Hleft.
Qed.

Lemma valid_bytes_loop_leftover_nonneg fuel : forall self r,
  within_buffer self -> leftover_nonneg self ->
  valid_bytes_loop fuel self = Some r -> leftover_nonneg (state_of r).
Proof.
  induction fuel as [|fuel IH]; intros self r Hw Hleft; simpl.
  - destruct (_remaining_bytes self); [|discriminate].
    intros E. inversion E. exact Hleft.
  - destruct (_remaining_bytes self) eqn:Hr.
    + intros E. inversion E. exact Hleft.
    + pose proof (cache_next_within self Hw) as Hk.
      pose proof (cache_next_leftover self (proj1 Hw) Hleft) as Hl.
      destruct (_cache_next self) as [[] s|e s]; simpl in Hk, Hl.
      * apply IH; assumption.
      * intros E. inversion E. exact Hl.
Qed.

Lemma step_leftover_nonneg ov fuel o self self' :
  within_buffer self -> leftover_nonneg self ->
  step ov fuel o self = Some self' -> leftover_nonneg self'.
Proof.
  intros Hw Hleft. destruct o; simpl; intros Hstep.
  - inversion Hstep. subst self'. exact Hleft.
  - inversion Hstep. subst self'. clear Hstep. unfold next_batch.
    destruct (_next_slice self); [|exact Hleft].
    destruct (_ <? _); [exact Hleft|].
    pose proof (cache_next_leftover self (proj1 Hw) Hleft) as Hl.
    destruct (_cache_next self) as [[] s|e s]; simpl in Hl; [|exact Hl].
    destruct (unpack_from_b _ _); [|exact Hl].
    destruct (_ <=? _); exact Hl.
  - unfold valid_bytes, valid_bytes_return in Hstep.
    destruct (_remaining_bytes self) eqn:Hr.
    + inversion Hstep. subst self'. exact Hleft.
    + destruct (valid_bytes_loop fuel self) as [[[] s|e s]|] eqn:Hloop;
        try discriminate;
        pose proof (valid_bytes_loop_leftover_nonneg _ _ _ Hw Hleft Hloop)
          as Hl; simpl in Hl, Hstep.
      * assert (Hrest : leftover_nonneg
                          (restore s (_next_slice self) (_pos self)))
          by exact Hl.
        destruct (_remaining_bytes s); inversion Hstep; subst self';
          exact Hrest.
      * inversion Hstep. subst self'. exact Hl.
  - inversion Hstep. subst self'. exact Hleft.
Qed.

(** X15. In every state a reader reaches from its construction, the
    leftover count, once known, is not negative, so that [valid_bytes()],
    whenever it returns, returns at most [size_in_bytes()]. (It can return
    a negative number: over a buffer whose length field is negative the
    scan can stop at a negative position.) *)
Theorem valid_bytes_at_most_size
        (RECORD_OVERHEAD_V0 : Z) (self self' : t) (fuel : nat) (v : Z) :
  reachable RECORD_OVERHEAD_V0 self ->
  valid_bytes fuel self = Some (Return v self') ->
  v <= size_in_bytes self /\
  exists leftover,
    _remaining_bytes self' = Some leftover /\ 0 <= leftover /\
    v = size_in_bytes self - leftover.
Proof.
  intros Hreach Hvalid.
  assert (Hinv : within_buffer self /\ leftover_nonneg self).
  { clear Hvalid.
    induction Hreach as [bytes_data|self fuel' o self1 Hreach IH Hstep].
    - unfold __init__.
      assert (Hw : within_buffer (mk bytes_data 0 None None))
        by (split; simpl; [apply len_nonneg|discriminate]).
      split; [apply cache_next_within; exact Hw|].
      apply cache_next_leftover; [apply Hw|]. intros r Hr. discriminate.
    - destruct IH as [Hw Hleft]. split.
      + eapply step_within; eassumption.
      + eapply step_leftover_nonneg; eassumption. }
  destruct Hinv as [Hw Hleft].
  assert (Hstep : step RECORD_OVERHEAD_V0 fuel ValidBytes self = Some self')
    by (simpl; rewrite Hvalid; reflexivity).
  pose proof (step_leftover_nonneg _ _ _ _ _ Hw Hleft Hstep) as Hleft'.
  destruct (valid_bytes_returned _ _ _ _ Hvalid) as [[r [Hr Hv]] _].
  specialize (Hleft' r Hr). unfold size_in_bytes.
  split; [lia|]. exists r. auto.
Qed.

Lemma valid_bytes_at_most_size_witness :
  let self := state_of (__init__ TestDouble.streamed_buffer) in
  exists self', valid_bytes 2 self = Some (Return 52 self') /\
                52 <= size_in_bytes self.
Proof.
  cbv zeta. eexists. split; [reflexivity|].
  destruct (valid_bytes_at_most_size
              14 (state_of (__init__ TestDouble.streamed_buffer)) _ 2 52
              (reach_init 14 TestDouble.streamed_buffer) eq_refl)
    as [H _].
  exact H.
Defined.

(** Over the 12-byte buffer whose length field is -13 the scan stops at
    position -1, and that is what [valid_bytes()] returns. *)
Example valid_bytes_negative :
  option_map observed
             (valid_bytes 1 (state_of (__init__ TestDouble.wrapped_buffer))) =
    Some (inr (-1)).
Proof. reflexivity. Qed.


End MemoryRecordsMore.

(** * More properties of the writer *)

Module MemoryRecordsBuilderMore.

Import Encoder MemoryRecordsBuilder Lifetimes MemoryRecordsBuilderSpec.

Section Writer.

Context {E Metadata : Type} {encoder : BatchEncoder E Metadata}.

Local Abbreviation world := (world E Metadata).

(** *** The logical offset *)

Lemma step_offset (w : world) o :
  _next_offset (this (step w o)) +
  Z.of_nat (List.length (accepted_offsets (calls w))) =
    _next_offset (this w) + skipped [o] +
    Z.of_nat (List.length (accepted_offsets (calls (step w o)))).
Proof.
  destruct (is_skip o) eqn:Hskip.
  - destruct o; try discriminate. simpl. lia.
  - assert (Hzero : skipped [o] = 0) by (destruct o; try discriminate; reflexivity).
    rewrite Hzero.
    destruct (step_accepted w o Hskip) as [[Ha Hn]|[Ha Hn]]; rewrite Ha, Hn.
    + lia.
    + rewrite length_app. simpl. lia.
Qed.

Lemma skipped_cons o ops : skipped (o :: ops) = skipped [o] + skipped ops.
Proof. destruct o; simpl; lia. Qed.

Lemma run_offset ops : forall w : world,
  _next_offset (this (run ops w)) +
  Z.of_nat (List.length (accepted_offsets (calls w))) =
    _next_offset (this w) + skipped ops +
    Z.of_nat (List.length (accepted_offsets (calls (run ops w)))).
Proof.
  induction ops as [|o ops IH]; intros w.
  - simpl. lia.
  - rewrite skipped_cons. simpl run.
    pose proof (IH (step w o)). pose proof (step_offset w o). lia.
Qed.

(** X8. The logical offset of a writer is, at any point of its lifetime,
    the offset it was constructed at plus the number of appends its encoder
    has accepted plus the sum of the offsets skipped; [skip] adds its
    argument whether the writer is open or closed and whatever its sign. *)
Theorem next_offset_counts_appends_and_skips
        (magic compression_type batch_size offset : Z) (transactional : bool)
        (producer_id producer_epoch base_sequence : Z)
        (w0 : world) (ops : list op) :
  __init__ magic compression_type batch_size offset transactional
           producer_id producer_epoch base_sequence = New w0 ->
  let w := run ops w0 in
  next_offset w =
    Return (offset
            + Z.of_nat (List.length (accepted_offsets (calls w)))
            + skipped ops) w /\
  forall n, next_offset (step w (Skip n)) =
              Return (offset
                      + Z.of_nat (List.length (accepted_offsets (calls w)))
                      + skipped ops + n) (step w (Skip n)).
Proof.
  intros Hinit w. subst w.
  assert (Hfresh : calls w0 = [] /\ _next_offset (this w0) = offset).
  { revert Hinit. unfold __init__, py_assert.
    repeat match goal with
           | |- context [if ?c then _ else _] => destruct c
           end; intros Hnew; inversion Hnew; split; reflexivity. }
  destruct Hfresh as [Hcalls Hoff].
  pose proof (run_offset ops w0) as Hrun.
  rewrite Hcalls, Hoff in Hrun. simpl in Hrun.
  unfold next_offset. split.
  - f_equal. lia.
  - intros n. simpl. f_equal. lia.
Qed.

(** *** The two states of a writer *)

Lemma step_closed (w : world) o :
  _closed (this w) = true ->
  step w o =
    on_this (set_next_offset (_next_offset (this w) + skipped [o])) w.
Proof.
  destruct w as [[bd bs bf no cl mg bw pi pe] cs]. simpl. intros ->.
  destruct o; simpl;
    unfold skip, append, set_producer_state, get_producer_id,
           get_producer_epoch, records, close, size_in_bytes,
           compression_rate, is_full, next_offset, buffer, bind, on_this,
           set_next_offset, set_closed;
    simpl; rewrite ?Z.add_0_r; try reflexivity.
  - destruct (mg <? 2); reflexivity.
  - destruct pe; reflexivity.
  - destruct bf as [d|]; [|reflexivity].
    destruct (MemoryRecords.__init__ d); reflexivity.
  - destruct bf; reflexivity.
  - destruct bf; simpl; [|reflexivity]. destruct (bw =? 0); reflexivity.
Qed.

(** X9. A closed writer is final: whatever operations follow, it stays
    closed and nothing of it changes, no call reaches an encoder, and the
    log of encoder calls stays as it was; the one exception is the logical
    offset, which [skip] still moves. *)
Theorem closed_writer_only_skips (w : world) (ops : list op) :
  _closed (this w) = true ->
  run ops w =
    on_this (set_next_offset (_next_offset (this w) + skipped ops)) w.
Proof.
  revert w. induction ops as [|o ops IH]; intros w Hclosed.
  - destruct w as [[bd bs bf no cl mg bw pi pe] cs].
    unfold on_this, set_next_offset. simpl. rewrite Z.add_0_r. reflexivity.
  - simpl run. rewrite (step_closed w o Hclosed).
    rewrite IH by exact Hclosed.
    rewrite (skipped_cons o ops).
    unfold on_this, set_next_offset. simpl. rewrite Z.add_assoc. reflexivity.
Qed.

Lemma step_open (w : world) o b :
  _closed (this w) = false ->
  _builder (this w) = Some b ->
  _buffer (this w) = None ->
  open_or_closed (step w o) /\
  _closed (this (step w o)) = is_close o.
Proof.
  destruct w as [[bd bs bf no cl mg bw pi pe] cs]. simpl.
  intros -> -> ->. unfold open_or_closed.
  destruct o; simpl;
    unfold skip, append, set_producer_state, get_producer_id,
           get_producer_epoch, records, close, size_in_bytes,
           compression_rate, is_full, next_offset, buffer, bind, on_this,
           called; simpl;
    try (split; [left; repeat split; discriminate|reflexivity]).
  - destruct (Encoder.append b no r) as [[md|] b']; simpl;
      (split; [left; repeat split; discriminate|reflexivity]).
  - destruct (mg <? 2); simpl;
      (split; [left; repeat split; discriminate|reflexivity]).
  - destruct pe; simpl;
      (split; [left; repeat split; discriminate|reflexivity]).
  - destruct (Encoder.build b) as [data b']. simpl.
    destruct (mg =? 2); simpl;
      (split; [right; repeat split; discriminate|reflexivity]).
Qed.

(** X10. Over a lifetime that starts at the constructor a writer is in one
    of two states: open, with its encoder and no buffer, until the first
    [close()]; closed, with the finalized buffer and its encoder released,
    from the first [close()] on. *)
Theorem writer_is_open_or_closed (w0 : world) (ops : list op) :
  fresh w0 ->
  open_or_closed (run ops w0) /\
  _closed (this (run ops w0)) = existsb is_close ops.
Proof.
  intros Hfresh.
  assert (H0 : _closed (this w0) = false /\
               (exists b, _builder (this w0) = Some b) /\
               _buffer (this w0) = None).
  { destruct Hfresh as (magic & ct & bs & off & tx & pid & ep & sq & Hinit).
    revert Hinit. unfold __init__, py_assert.
    repeat match goal with
           | |- context [if ?c then _ else _] => destruct c
           end; intros Hnew; inversion Hnew; simpl; eauto. }
  clear Hfresh. revert w0 H0.
  induction ops as [|o ops IH]; intros w (Hc & [b Hb] & Hbuf).
  - simpl. split; [|exact Hc]. left. repeat split; congruence.
  - simpl run. simpl existsb.
    destruct (step_open w o b Hc Hb Hbuf) as [Hstate Hclosed].
    destruct (is_close o) eqn:Ho.
    + rewrite (closed_writer_only_skips _ ops Hclosed). simpl.
      split; [|exact Hclosed].
      destruct Hstate as [(Hx & _)|(Hx & Hy & Hz)]; [congruence|].
      right. repeat split; assumption.
    + simpl. apply IH.
      destruct Hstate as [(Hx & Hy & Hz)|(Hx & _)]; [|congruence].
      split; [exact Hx|]. split; [|exact Hz].
      destruct (_builder (this (step w o))) as [b'|]; [eauto|congruence].
Qed.

(** *** Reading what was written *)

(** X11. [buffer()], [records()] and [compression_rate()] are refused with
    an assertion error, and change nothing, on a writer that is not closed.
    On a closed writer of a lifetime that starts at the constructor,
    [buffer()] returns the finalized bytes, [size_in_bytes()] their length
    without asking an encoder, and [records()] never fails: it returns a
    reader over exactly those bytes, of the same [size_in_bytes()], and
    leaves the writer as it is. *)
Theorem closed_writer_is_readable (w0 : world) (ops : list op) :
  fresh w0 ->
  let w := run ops w0 in
  (_closed (this w) = false ->
   buffer w = Raise (AssertionError EmptyString) w /\
   records w = Raise (AssertionError EmptyString) w /\
   compression_rate w = Raise (AssertionError EmptyString) w) /\
  (_closed (this w) = true ->
   exists data reader,
     buffer w = Return (Some data) w /\
     size_in_bytes w = Return (len data) w /\
     records w = Return reader w /\
     MemoryRecords.__init__ data = Return tt reader /\
     MemoryRecords._buffer reader = data /\
     MemoryRecords.size_in_bytes reader = len data).
Proof.
  intros Hfresh w. subst w.
  destruct (writer_is_open_or_closed w0 ops Hfresh) as [Hstate _].
  split; intros Hclosed.
  - unfold buffer, records, compression_rate. rewrite Hclosed. auto.
  - destruct Hstate as [(Hx & _)|(_ & _ & Hbuf)]; [congruence|].
    destruct (_buffer (this (run ops w0))) as [data|] eqn:Hdata; [|congruence].
    destruct (MemoryRecordsSpec.cache_next_returns
                (MemoryRecords.mk data 0 None None)) as [reader Hreader];
      [simpl; lia|].
    pose proof (MemoryRecordsSpec.cache_next_buffer
                  (MemoryRecords.mk data 0 None None)) as Hb.
    rewrite Hreader in Hb. simpl in Hb.
    exists data, reader.
    unfold buffer, size_in_bytes, records, MemoryRecords.__init__,
           MemoryRecords.size_in_bytes.
    rewrite Hclosed, Hdata, Hreader, Hb. simpl. repeat split.
Qed.

(** X12. Closing an open writer fixes what it reports afterwards:
    [size_in_bytes()] is the length of the bytes built, no longer the
    encoder's size; [is_full()] is true whatever the capacity; and
    [compression_rate()] is the length of the bytes built over the size the
    encoder reported just before building, or a division by zero when that
    size was 0. *)
Theorem close_fixes_the_sizes (w : world) (b : E) :
  _closed (this w) = false ->
  _builder (this w) = Some b ->
  exists w1,
    close w = Return tt w1 /\
    _bytes_written (this w1) = Encoder.size b /\
    size_in_bytes w1 = Return (len (fst (Encoder.build b))) w1 /\
    is_full w1 = Return true w1 /\
    compression_rate w1 =
      if Encoder.size b =? 0 then Raise ZeroDivisionError w1
      else Return (len (fst (Encoder.build b)), Encoder.size b) w1.
Proof.
  intros Hopen Hb. unfold close. rewrite Hopen, Hb. simpl.
  destruct (Encoder.build b) as [data b']. eexists.
  split; [reflexivity|].
  unfold size_in_bytes, is_full, compression_rate, bind, size_in_bytes.
  destruct (_magic (this w) =? 2); simpl;
    (destruct (Encoder.size b =? 0); repeat split).
Qed.

(** *** The producer state of a modern writer *)

Lemma step_producer_known (w : world) o :
  producer_known w -> producer_known (step w o).
Proof.
  destruct w as [[bd bs bf no cl mg bw pi pe] cs].
  unfold producer_known. simpl. intros [[p ->] [e ->]].
  destruct o; simpl;
    unfold skip, append, set_producer_state, get_producer_id,
           get_producer_epoch, records, close, size_in_bytes,
           compression_rate, is_full, next_offset, buffer, bind, on_this,
           called; simpl; eauto.
  - destruct cl; simpl; eauto. destruct bd as [b|]; simpl; eauto.
    destruct (Encoder.append b no r) as [[md|] b']; simpl; eauto.
  - destruct (mg <? 2); simpl; eauto. destruct cl; simpl; eauto.
    destruct bd; simpl; eauto.
  - destruct cl; simpl; eauto. destruct bf as [d|]; simpl; eauto.
    destruct (MemoryRecords.__init__ d); simpl; eauto.
  - destruct cl; simpl; eauto. destruct bd as [b|]; simpl; eauto.
    destruct (Encoder.build b) as [data b']. simpl.
    destruct (mg =? 2); simpl; eauto.
  - destruct cl; simpl; [destruct bf|destruct bd]; simpl; eauto.
  - destruct cl; simpl; eauto. destruct bf; simpl; eauto.
    destruct (bw =? 0); simpl; eauto.
  - destruct cl; simpl; eauto. destruct bd; simpl; eauto.
  - destruct cl; simpl; eauto.
Qed.

(** X13. A writer constructed with magic 2 can be asked for its producer
    id and epoch at any point of its lifetime: the producer id is never
    none and reading [producer_epoch] never raises. The first [close()] of
    an open magic-2 writer replaces both by what its encoder reports after
    building. *)
Theorem modern_producer_state_is_known
        (magic compression_type batch_size offset : Z) (transactional : bool)
        (producer_id producer_epoch base_sequence : Z)
        (w0 : world) (ops : list op) :
  2 <= magic ->
  __init__ magic compression_type batch_size offset transactional
           producer_id producer_epoch base_sequence = New w0 ->
  get_producer_id w0 = Return (Some producer_id) w0 /\
  get_producer_epoch w0 = Return producer_epoch w0 /\
  (exists p e,
      get_producer_id (run ops w0) = Return (Some p) (run ops w0) /\
      get_producer_epoch (run ops w0) = Return e (run ops w0)) /\
  (forall b,
      _closed (this (run ops w0)) = false ->
      _builder (this (run ops w0)) = Some b ->
      exists w1,
        close (run ops w0) = Return tt w1 /\
        get_producer_id w1 =
          Return (Some (Encoder.producer_id (snd (Encoder.build b)))) w1 /\
        get_producer_epoch w1 =
          Return (Encoder.producer_epoch (snd (Encoder.build b))) w1).
Proof.
  intros Hmagic Hinit.
  assert (H0 : _producer_id (this w0) = Some producer_id /\
               _producer_epoch (this w0) = Assigned producer_epoch /\
               _magic (this w0) = 2).
  { revert Hinit. unfold __init__, py_assert, mem. simpl.
    destruct (Z.eqb_spec magic 0); [lia|].
    destruct (Z.eqb_spec magic 1); [lia|].
    destruct (Z.eqb_spec magic 2); [subst magic|discriminate]. simpl.
    repeat match goal with
           | |- context [if ?c then _ else _] => destruct c
           end; intros Hnew; inversion Hnew; simpl; auto. }
  destruct H0 as (Hpid & Hep & Hm).
  assert (Hknown : producer_known (run ops w0) /\
                   _magic (this (run ops w0)) = 2).
  { assert (Hk0 : producer_known w0) by (split; eauto).
    clear Hinit Hpid Hep. revert w0 Hk0 Hm.
    induction ops as [|o ops IH]; intros w Hk Hm; [auto|].
    simpl run. apply IH; [apply step_producer_known; exact Hk|].
    destruct (step_effect w o)
      as [(_ & _ & _ & _ & Hmagic' & _)|(_ & _ & _ & _ & Hmagic' & _)];
      congruence. }
  destruct Hknown as [[[p Hp] [e He]] Hm'].
  unfold get_producer_id, get_producer_epoch.
  rewrite Hpid, Hep, Hp, He.
  split; [reflexivity|]. split; [reflexivity|]. split; [eauto|].
  intros b Hopen Hb. unfold close. rewrite Hopen, Hb. simpl.
  destruct (Encoder.build b) as [data b']. simpl. rewrite Hm'. simpl.
  eexists. repeat split.
Qed.

(** *** From the writer to the reader *)

(** X14. When the encoder of an open writer builds one well-formed batch,
    the reader that [records()] returns after [close()] has that batch as
    its next batch, yields it, whole, in the decoder of its magic byte, has
    no further batch, and counts all its bytes as valid. *)
Theorem records_yields_the_batch_built
        (RECORD_OVERHEAD_V0 : Z) (w : world) (b : E) :
  5 <= RECORD_OVERHEAD_V0 ->
  _closed (this w) = false ->
  _builder (this w) = Some b ->
  let data := fst (Encoder.build b) in
  Batches.well_formed RECORD_OVERHEAD_V0 data ->
  exists w1 reader reader',
    close w = Return tt w1 /\
    records w1 = Return reader w1 /\
    MemoryRecords.has_next reader = true /\
    MemoryRecords.next_batch RECORD_OVERHEAD_V0 reader =
      Return (Some (Batches.decoder (mk_memoryview data 0 (len data))))
             reader' /\
    tobytes (mk_memoryview data 0 (len data)) = data /\
    MemoryRecords.has_next reader' = false /\
    MemoryRecords.valid_bytes 0 reader' =
      Some (Return (MemoryRecords.size_in_bytes reader') reader').
Proof.
  intros Hov Hopen Hb data Hwf.
  assert (Hfr : Forall Batches.framed [data])
    by (repeat constructor; apply Hwf).
  pose proof (MemoryRecordsSpec.init_cursor [data] Hfr) as Hinit.
  pose proof (MemoryRecordsSpec.next_batch_cursor
                RECORD_OVERHEAD_V0 [] data [] Hov Hwf (Forall_nil _)) as Hnext.
  unfold Batches.cursor, Batches.at_batch, Batches.at_end in Hinit, Hnext.
  simpl in Hinit, Hnext. rewrite !app_nil_r in Hinit, Hnext.
  unfold close. rewrite Hopen, Hb. simpl.
  fold data. destruct (Encoder.build b) as [data' b'] eqn:Hbuild.
  simpl in data. subst data.
  do 3 eexists. split; [reflexivity|].
  unfold records. split.
  { destruct (_magic (this w) =? 2); simpl; rewrite Hinit; reflexivity. }
  split; [reflexivity|]. split; [exact Hnext|]. split.
  { pose proof (MemoryRecordsSpec.tobytes_middle [] data' []) as Ht.
    simpl in Ht. rewrite app_nil_r in Ht. exact Ht. }
  split; [reflexivity|].
  unfold MemoryRecords.valid_bytes, MemoryRecords.valid_bytes_return,
         MemoryRecords.size_in_bytes. simpl.
  rewrite Z.sub_0_r. reflexivity.
Qed.

End Writer.

#[local] Existing Instance TestDouble.encoder.

Lemma next_offset_counts_appends_and_skips_witness :
  let ops := [Append TestDouble.a_record; Skip 10; Close; Skip (-3);
              Append TestDouble.a_record] in
  let w := run ops (TestDouble.open_writer 1 5) in
  accepted_offsets (calls w) = [5] /\
  next_offset w = Return 13 w.
Proof.
  cbv zeta. split; [reflexivity|].
  assert (Hinit : __init__ 1 0 100 5 false (-1) (-1) (-1) =
                  New (TestDouble.open_writer 1 5)) by reflexivity.
  destruct (next_offset_counts_appends_and_skips
              1 0 100 5 false (-1) (-1) (-1) (TestDouble.open_writer 1 5)
              [Append TestDouble.a_record; Skip 10; Close; Skip (-3);
               Append TestDouble.a_record] Hinit) as [H _].
  exact H.
Defined.

Lemma open_writer_is_fresh magic :
  magic = 1 \/ magic = 2 -> fresh (TestDouble.open_writer magic 0).
Proof.
  intros [->| ->];
    [exists 1, 0, 100, 0, false, (-1), (-1), (-1)
    |exists 2, 0, 100, 0, false, (-1), (-1), (-1)]; reflexivity.
Qed.

Lemma closed_writer_only_skips_witness :
  let w := step (step (TestDouble.open_writer 2 0) (Append TestDouble.a_record))
                Close in
  run [Append TestDouble.a_record; Skip 4; SetProducerState 7 1 0 false;
       Close; IsFull] w =
    on_this (set_next_offset 5) w.
Proof.
  cbv zeta.
  assert (Hclosed : _closed (this (step (step (TestDouble.open_writer 2 0)
                                              (Append TestDouble.a_record))
                                        Close)) = true) by reflexivity.
  exact (closed_writer_only_skips
           (step (step (TestDouble.open_writer 2 0)
                       (Append TestDouble.a_record)) Close)
           [Append TestDouble.a_record; Skip 4; SetProducerState 7 1 0 false;
            Close; IsFull] Hclosed).
Defined.

Lemma writer_is_open_or_closed_witness :
  let w := run [Append TestDouble.a_record; Close; Append TestDouble.a_record]
               (TestDouble.open_writer 2 0) in
  open_or_closed w /\ _closed (this w) = true.
Proof.
  cbv zeta.
  apply (writer_is_open_or_closed
           (TestDouble.open_writer 2 0)
           [Append TestDouble.a_record; Close; Append TestDouble.a_record]).
  apply open_writer_is_fresh. right. reflexivity.
Defined.

Lemma closed_writer_is_readable_witness :
  let w := run [Append TestDouble.a_record; Close]
               (TestDouble.open_writer 2 0) in
  exists data reader,
    buffer w = Return (Some data) w /\
    records w = Return reader w /\
    MemoryRecords.size_in_bytes reader = len data.
Proof.
  cbv zeta.
  destruct (closed_writer_is_readable
              (TestDouble.open_writer 2 0)
              [Append TestDouble.a_record; Close]) as [_ H];
    [apply open_writer_is_fresh; right; reflexivity|].
  destruct (H eq_refl) as (data & reader & Hb & _ & Hr & _ & _ & Hs).
  exists data, reader. repeat split; assumption.
Defined.

Lemma close_fixes_the_sizes_witness :
  exists w1,
    close (TestDouble.open_writer 1 0) = Return tt w1 /\
    compression_rate w1 = Raise ZeroDivisionError w1.
Proof.
  destruct (close_fixes_the_sizes
              (TestDouble.open_writer 1 0)
              (TestDouble.mk_enc 100 [] (-1) (-1) (-1) false)
              eq_refl eq_refl)
    as (w1 & Hclose & _ & _ & _ & Hrate).
  exists w1. split; [exact Hclose|exact Hrate].
Defined.

Lemma modern_producer_state_is_known_witness :
  let w := run [SetProducerState 7 1 0 false; Close]
               (TestDouble.open_writer 2 0) in
  exists p e,
    get_producer_id w = Return (Some p) w /\
    get_producer_epoch w = Return e w.
Proof.
  cbv zeta.
  assert (Hinit : __init__ 2 0 100 0 false (-1) (-1) (-1) =
                  New (TestDouble.open_writer 2 0)) by reflexivity.
  destruct (modern_producer_state_is_known
              2 0 100 0 false (-1) (-1) (-1) (TestDouble.open_writer 2 0)
              [SetProducerState 7 1 0 false; Close])
    as (_ & _ & H & _); [lia|exact Hinit|].
  exact H.
Defined.

Lemma records_yields_the_batch_built_witness :
  let w : world unit Z :=
    {| this := mk (Some tt) 100 None 0 false 1 0 None Unset; calls := [] |} in
  exists w1 reader reader',
    close (encoder := TestDouble.framing_encoder) w = Return tt w1 /\
    records w1 = Return reader w1 /\
    MemoryRecords.next_batch 14 reader =
      Return (Some (LegacyRecordBatch
                      (mk_memoryview TestDouble.legacy_batch 0 26) 0))
             reader' /\
    MemoryRecords.has_next reader' = false.
Proof.
  cbv zeta.
  destruct (records_yields_the_batch_built
              (encoder := TestDouble.framing_encoder) 14
              {| this := mk (Some tt) 100 None 0 false 1 0 None Unset;
                 calls := [] |} tt)
    as (w1 & reader & reader' & Hclose & Hrec & _ & Hnext & _ & Hlast & _);
    [lia|reflexivity|reflexivity
    |split; [reflexivity|vm_compute; discriminate]|].
  exists w1, reader, reader'.
  split; [exact Hclose|]. split; [exact Hrec|]. split; [|exact Hlast].
  rewrite Hnext. reflexivity.
Defined.

End MemoryRecordsBuilderMore.
